(** * web.py: request counting and ten-second caching around a page fetcher

    The development embeds [count_requests] of [0x02-redis_basic/web.py]
    together with the collaborators it talks to: the UTF-8 codec Python
    applies to [str] and [bytes], the three Redis commands the wrapper
    issues (INCR, GET, SETEX) and the decorated page fetcher. *)

From Stdlib Require Import ZArith List Lia Decimal DecimalZ Ascii.
From Stdlib Require String.
Import String.StringSyntax.
Delimit Scope string_scope with string.
From stdpp Require Import gmap list fin_maps.

Local Open Scope Z_scope.

(** A Python [str] is a sequence of code points, a [bytes] object a
    sequence of octets. *)
Abbreviation pystr := (list Z).
Abbreviation bytes := (list Z).

(** ** The UTF-8 codec ([str.encode] / [bytes.decode], strict errors) *)

Module Utf8.

Definition is_surrogate (ch : Z) : bool := (0xD800 <=? ch) && (ch <=? 0xDFFF).

(** One code point, as the encoder emits it: one to four octets built with
    shifts and masks; a lone surrogate raises [UnicodeEncodeError]. *)
Definition encode_char (ch : Z) : option bytes :=
  if ch <? 0 then None
  else if ch <? 0x80 then Some [ch]
  else if ch <? 0x800 then
    Some [Z.lor 0xC0 (Z.shiftr ch 6); Z.lor 0x80 (Z.land ch 0x3F)]
  else if is_surrogate ch then None
  else if ch <? 0x10000 then
    Some [Z.lor 0xE0 (Z.shiftr ch 12);
          Z.lor 0x80 (Z.land (Z.shiftr ch 6) 0x3F);
          Z.lor 0x80 (Z.land ch 0x3F)]
  else if ch <=? 0x10FFFF then
    Some [Z.lor 0xF0 (Z.shiftr ch 18);
          Z.lor 0x80 (Z.land (Z.shiftr ch 12) 0x3F);
          Z.lor 0x80 (Z.land (Z.shiftr ch 6) 0x3F);
          Z.lor 0x80 (Z.land ch 0x3F)]
  else None.

Fixpoint encode (s : pystr) : option bytes :=
  match s with
  | [] => Some []
  | ch :: s' =>
      match encode_char ch, encode s' with
      | Some b, Some bs => Some (b ++ bs)
      | _, _ => None
      end
  end.

Definition is_continuation (b : Z) : bool := (0x80 <=? b) && (b <? 0xC0).

(** The strict decoder: the lead octet fixes the length, continuation
    octets are checked, overlong forms, surrogates and values above
    U+10FFFF are refused; any refusal raises [UnicodeDecodeError]. *)
Fixpoint decode (s : bytes) : option pystr :=
  match s with
  | [] => Some []
  | ch :: s1 =>
      if ch <? 0 then None
      else if ch <? 0x80 then cons ch <$> decode s1
      else if ch <? 0xC2 then None
      else if ch <? 0xE0 then
        match s1 with
        | ch2 :: s2 =>
            if is_continuation ch2 then
              cons (Z.shiftl ch 6 + ch2 - (Z.shiftl 0xC0 6 + 0x80)) <$> decode s2
            else None
        | _ => None
        end
      else if ch <? 0xF0 then
        match s1 with
        | ch2 :: ch3 :: s3 =>
            if is_continuation ch2 && is_continuation ch3
               && negb (if ch2 <? 0xA0 then ch =? 0xE0 else ch =? 0xED) then
              cons (Z.shiftl ch 12 + Z.shiftl ch2 6 + ch3
                    - (Z.shiftl 0xE0 12 + Z.shiftl 0x80 6 + 0x80)) <$> decode s3
            else None
        | _ => None
        end
      else if ch <? 0xF5 then
        match s1 with
        | ch2 :: ch3 :: ch4 :: s4 =>
            if is_continuation ch2 && is_continuation ch3 && is_continuation ch4
               && negb (if ch2 <? 0x90 then ch =? 0xF0 else ch =? 0xF4) then
              cons (Z.shiftl ch 18 + Z.shiftl ch2 12 + Z.shiftl ch3 6 + ch4
                    - (Z.shiftl 0xF0 18 + Z.shiftl 0x80 12 + Z.shiftl 0x80 6 + 0x80))
                <$> decode s4
            else None
        | _ => None
        end
      else None
  end.

(** Code points the encoder accepts. *)
Definition encodable_char (ch : Z) : Prop :=
  0 <= ch < 0xD800 \/ 0xE000 <= ch <= 0x10FFFF.

End Utf8.

(** ** The Redis server: the keyspace and the three commands used *)

Module Redis.

(** A string value with its optional expiry time. *)
Record entry := Entry { value : bytes; expire_at : option Z }.

Abbreviation keyspace := (gmap (list Z) entry).

(** A key is gone once the clock is past its expiry time. *)
Definition expired (now : Z) (e : entry) : bool :=
  match expire_at e with
  | Some t => t <? now
  | None => false
  end.

Definition lookup (db : keyspace) (now : Z) (key : bytes) : option entry :=
  match db !! key with
  | Some e => if expired now e then None else Some e
  | None => None
  end.

Definition LLONG_MAX : Z := 2 ^ 63 - 1.
Definition LLONG_MIN : Z := - 2 ^ 63.

Fixpoint bytes_of_uint (d : uint) : bytes :=
  match d with
  | Nil => []
  | D0 d => 48 :: bytes_of_uint d
  | D1 d => 49 :: bytes_of_uint d
  | D2 d => 50 :: bytes_of_uint d
  | D3 d => 51 :: bytes_of_uint d
  | D4 d => 52 :: bytes_of_uint d
  | D5 d => 53 :: bytes_of_uint d
  | D6 d => 54 :: bytes_of_uint d
  | D7 d => 55 :: bytes_of_uint d
  | D8 d => 56 :: bytes_of_uint d
  | D9 d => 57 :: bytes_of_uint d
  end.

Fixpoint uint_of_bytes (s : bytes) : option uint :=
  match s with
  | [] => Some Nil
  | b :: s' =>
      match uint_of_bytes s' with
      | Some d =>
          match b with
          | 48 => Some (D0 d) | 49 => Some (D1 d) | 50 => Some (D2 d)
          | 51 => Some (D3 d) | 52 => Some (D4 d) | 53 => Some (D5 d)
          | 54 => Some (D6 d) | 55 => Some (D7 d) | 56 => Some (D8 d)
          | 57 => Some (D9 d) | _ => None
          end
      | None => None
      end
  end.

(** The decimal text of an integer, as the server stores a counter. *)
Definition ll2string (n : Z) : bytes :=
  match Z.to_int n with
  | Decimal.Pos d => bytes_of_uint d
  | Decimal.Neg d => 45 :: bytes_of_uint d
  end.

(** The server reads a value as an integer only when it is the exact
    decimal text of a signed 64-bit number: no sign [+], no spaces, no
    leading zeros. *)
Definition string2ll (s : bytes) : option Z :=
  let digits :=
    match s with
    | 45 :: s' => Decimal.Neg <$> uint_of_bytes s'
    | _ => Decimal.Pos <$> uint_of_bytes s
    end in
  match digits with
  | Some d =>
      let n := Z.of_int d in
      if bool_decide (ll2string n = s) && (LLONG_MIN <=? n) && (n <=? LLONG_MAX)
      then Some n else None
  | None => None
  end.

(** Error replies. *)
Inductive error :=
  | NotAnInteger      (* ERR value is not an integer or out of range *)
  | WouldOverflow     (* ERR increment or decrement would overflow *)
  | InvalidExpire.    (* ERR invalid expire time in 'setex' command *)

(** INCR key: a missing key counts as 0; the expiry of a live key is kept. *)
Definition INCR (db : keyspace) (now : Z) (key : bytes) : error + (Z * keyspace) :=
  match lookup db now key with
  | None => inr (1, <[key := Entry (ll2string 1) None]> db)
  | Some e =>
      match string2ll (value e) with
      | None => inl NotAnInteger
      | Some n =>
          if LLONG_MAX <=? n then inl WouldOverflow
          else inr (n + 1, <[key := Entry (ll2string (n + 1)) (expire_at e)]> db)
      end
  end.

(** GET key. *)
Definition GET (db : keyspace) (now : Z) (key : bytes) : option bytes :=
  value <$> lookup db now key.

(** SETEX key seconds value: overwrite the value, expiry at now + seconds. *)
Definition SETEX (db : keyspace) (now : Z) (key : bytes) (seconds : Z) (v : bytes)
  : error + keyspace :=
  if seconds <=? 0 then inl InvalidExpire
  else inr (<[key := Entry v (Some (now + seconds))]> db).

End Redis.

(** ** The world the wrapper runs in *)

(** Calls the wrapper makes on its collaborators, in program order. *)
Inductive event :=
  | Incr (name : pystr)
  | Get (name : pystr)
  | Fetch (url : pystr)
  | Setex (name : pystr) (time : Z) (value : pystr).

(** The keyspace of the server behind the module-level client [r], the
    clock, and the calls made so far. *)
Record world := World {
  db : gmap (list Z) Redis.entry;
  now : Z;
  log : list event
}.

(** What a call can raise; [E] is the type of the exceptions of the
    decorated function. *)
Inductive exn (E : Type) :=
  | UnicodeEncodeError
  | UnicodeDecodeError
  | ResponseError (e : Redis.error)
  | Raised (e : E).
Arguments UnicodeEncodeError {E}.
Arguments UnicodeDecodeError {E}.
Arguments ResponseError {E} e.
Arguments Raised {E} e.

(** The decorated function: given the url and the time of the call it
    returns or raises, after [elapsed] time units. It does not touch the
    keyspace. *)
Record response (E : Type) := Response {
  outcome : E + pystr;
  elapsed : N
}.
Arguments Response {E} outcome elapsed.
Arguments outcome {E} r.
Arguments elapsed {E} r.

Definition fetcher (E : Type) : Type := pystr -> Z -> response E.

(** Statements run in a state-and-exception monad: an exception keeps the
    effects made before it. *)
Definition M (E A : Type) : Type := world -> (exn E + A) * world.

Definition ret {E A} (a : A) : M E A := fun w => (inr a, w).

Definition raise {E A} (e : exn E) : M E A := fun w => (inl e, w).

Definition bind {E A B} (m : M E A) (f : A -> M E B) : M E B :=
  fun w =>
    match m w with
    | (inr a, w') => f a w'
    | (inl e, w') => (inl e, w')
    end.

Declare Scope py_scope.
Delimit Scope py_scope with py.
Notation "'let*' x := c 'in' k" := (bind c (fun x => k))
  (at level 10, x name, c at level 100, k at level 200) : py_scope.

Definition record {E} (ev : event) : M E unit :=
  fun w => (inr tt, World (db w) (now w) (log w ++ [ev])).

(** A string literal of the program. *)
Definition lit (s : String.string) : pystr :=
  map (fun a => Z.of_N (N_of_ascii a)) (String.list_ascii_of_string s).
Arguments lit s%_string.

Section Client.
Context {E : Type}.
Local Open Scope py_scope.

(** The client sends every [str] argument as its UTF-8 encoding. *)
Definition encode_arg (s : pystr) : M E bytes :=
  match Utf8.encode s with
  | Some b => ret b
  | None => raise UnicodeEncodeError
  end.

(** [r.incr(name)] *)
Definition r_incr (name : pystr) : M E Z :=
  let* _ := record (Incr name) in
  let* key := encode_arg name in
  fun w =>
    match Redis.INCR (db w) (now w) key with
    | inr (n, db') => (inr n, World db' (now w) (log w))
    | inl e => (inl (ResponseError e), w)
    end.

(** [r.get(name)]: [None] or the stored [bytes] (responses are not
    decoded by the default client). *)
Definition r_get (name : pystr) : M E (option bytes) :=
  let* _ := record (Get name) in
  let* key := encode_arg name in
  fun w => (inr (Redis.GET (db w) (now w) key), w).

(** [r.setex(name, time, value)] *)
Definition r_setex (name : pystr) (time : Z) (value : pystr) : M E unit :=
  let* _ := record (Setex name time value) in
  let* key := encode_arg name in
  let* v := encode_arg value in
  fun w =>
    match Redis.SETEX (db w) (now w) key time v with
    | inr db' => (inr tt, World db' (now w) (log w))
    | inl e => (inl (ResponseError e), w)
    end.

(** [b.decode('utf-8')] *)
Definition bytes_decode (b : bytes) : M E pystr :=
  match Utf8.decode b with
  | Some s => ret s
  | None => raise UnicodeDecodeError
  end.

(** [method(url)]: the clock advances while the call is under way. *)
Definition call (method : fetcher E) (url : pystr) : M E pystr :=
  let* _ := record (Fetch url) in
  fun w =>
    let r := method url (now w) in
    let w' := World (db w) (now w + Z.of_N (elapsed r)) (log w) in
    match outcome r with
    | inr html => (inr html, w')
    | inl e => (inl (Raised e), w')
    end.

(** Truth value of [cache_html] in [if cache_html:]: [None] and the empty
    [bytes] are false. *)
Definition truthy (cache_html : option bytes) : bool :=
  match cache_html with
  | Some (_ :: _) => true
  | _ => false
  end.

(** [count_requests(method)], that is [wrapper]. *)
Definition count_requests (method : fetcher E) (url : pystr) : M E pystr :=
  let* _ := r_incr (lit "count:" ++ url) in
  let* cache_html := r_get (lit "cached:" ++ url) in
  if truthy cache_html then
    bytes_decode (default [] cache_html)
  else
    let* html := call method url in
    let* _ := r_setex (lit "cached:" ++ url) 10 html in
    ret html.

(** [get_page], decorated: its body, [requests.get(url).text], is the
    decorated function. *)
Definition get_page (requests_get_text : fetcher E) : pystr -> M E pystr :=
  count_requests requests_get_text.

(** [time.sleep(d)] *)
Definition sleep (d : N) (w : world) : world :=
  World (db w) (now w + Z.of_N d) (log w).

(** A caller's script: calls of the wrapped function (exceptions caught)
    and pauses. *)
Inductive action :=
  | Call (url : pystr)
  | Sleep (d : N).

Fixpoint run (method : fetcher E) (script : list action) (w : world)
  : list (exn E + pystr) * world :=
  match script with
  | [] => ([], w)
  | Call url :: rest =>
      let '(r, w1) := count_requests method url w in
      let '(rs, w2) := run method rest w1 in
      (r :: rs, w2)
  | Sleep d :: rest => run method rest (sleep d w)
  end.

End Client.

(** ** Observations *)

Definition count_name (url : pystr) : pystr := lit "count:" ++ url.
Definition cached_name (url : pystr) : pystr := lit "cached:" ++ url.

(** The entry a reader finds under a name at the world's time. *)
Definition entry_of (w : world) (name : pystr) : option Redis.entry :=
  match Utf8.encode name with
  | Some key => Redis.lookup (db w) (now w) key
  | None => None
  end.

(** The counter of a url as a reader sees it; a missing counter reads 0. *)
Definition counter (w : world) (url : pystr) : Z :=
  match entry_of w (count_name url) with
  | Some e => default 0 (Redis.string2ll (Redis.value e))
  | None => 0
  end.

(** The cached content of a url as a reader sees it. *)
Definition cached (w : world) (url : pystr) : option bytes :=
  Redis.value <$> entry_of w (cached_name url).

Definition is_fetch (url : pystr) (ev : event) : bool :=
  match ev with
  | Fetch u => bool_decide (u = url)
  | _ => false
  end.

(** How many times the decorated function was called on a url. *)
Definition fetches (url : pystr) (w : world) : nat :=
  List.length (List.filter (is_fetch url) (log w)).

Definition is_call (url : pystr) (a : action) : bool :=
  match a with
  | Call u => bool_decide (u = url)
  | Sleep _ => false
  end.

(** How many times a script calls the wrapped function on a url. *)
Definition calls (url : pystr) (script : list action) : nat :=
  List.length (List.filter (is_call url) script).

Definition empty_world : world := World ∅ 0 [].

(** The keys the two names of a url are sent as, [u] being the UTF-8
    encoding of the url. *)
Definition count_key (u : bytes) : bytes := lit "count:" ++ u.
Definition cached_key (u : bytes) : bytes := lit "cached:" ++ u.

(** The counter of a url is kept for good: its entry, when there is one,
    has no expiry and holds an integer. *)
Definition stable_counter (w : world) (url : pystr) : Prop :=
  match entry_of w (count_name url) with
  | Some e => Redis.expire_at e = None /\ is_Some (Redis.string2ll (Redis.value e))
  | None => True
  end.

(** The call was refused by the server (an error reply). *)
Definition refused {E} (r : exn E + pystr) : bool :=
  match r with
  | inl (ResponseError _) => true
  | _ => false
  end.

(** The call failed in the Store client: an argument could not be sent, or
    the server refused the command. *)
Definition store_failed {E} (r : exn E + pystr) : bool :=
  match r with
  | inl UnicodeEncodeError => true
  | inl (ResponseError _) => true
  | _ => false
  end.

(** The six ways through [wrapper], each with its result and final world. *)
Inductive path {E} (method : fetcher E) (url : pystr) (w : world)
  : exn E + pystr -> world -> Prop :=
  | path_bad_url :
      Utf8.encode url = None ->
      path method url w (inl UnicodeEncodeError)
        (World (db w) (now w) (log w ++ [Incr (count_name url)]))
  | path_refused u e :
      Utf8.encode url = Some u ->
      Redis.INCR (db w) (now w) (count_key u) = inl e ->
      path method url w (inl (ResponseError e))
        (World (db w) (now w) (log w ++ [Incr (count_name url)]))
  | path_hit u n db1 b :
      Utf8.encode url = Some u ->
      Redis.INCR (db w) (now w) (count_key u) = inr (n, db1) ->
      Redis.GET db1 (now w) (cached_key u) = Some b ->
      b <> [] ->
      path method url w
        (match Utf8.decode b with
         | Some s => inr s
         | None => inl UnicodeDecodeError
         end)
        (World db1 (now w)
           (log w ++ [Incr (count_name url); Get (cached_name url)]))
  | path_raised u n db1 e :
      Utf8.encode url = Some u ->
      Redis.INCR (db w) (now w) (count_key u) = inr (n, db1) ->
      truthy (Redis.GET db1 (now w) (cached_key u)) = false ->
      outcome (method url (now w)) = inl e ->
      path method url w (inl (Raised e))
        (World db1 (now w + Z.of_N (elapsed (method url (now w))))
           (log w ++ [Incr (count_name url); Get (cached_name url); Fetch url]))
  | path_bad_html u n db1 html :
      Utf8.encode url = Some u ->
      Redis.INCR (db w) (now w) (count_key u) = inr (n, db1) ->
      truthy (Redis.GET db1 (now w) (cached_key u)) = false ->
      outcome (method url (now w)) = inr html ->
      Utf8.encode html = None ->
      path method url w (inl UnicodeEncodeError)
        (World db1 (now w + Z.of_N (elapsed (method url (now w))))
           (log w ++ [Incr (count_name url); Get (cached_name url); Fetch url;
                      Setex (cached_name url) 10 html]))
  | path_miss u n db1 html v :
      Utf8.encode url = Some u ->
      Redis.INCR (db w) (now w) (count_key u) = inr (n, db1) ->
      truthy (Redis.GET db1 (now w) (cached_key u)) = false ->
      outcome (method url (now w)) = inr html ->
      Utf8.encode html = Some v ->
      path method url w (inr html)
        (World
           (<[cached_key u :=
                Redis.Entry v
                  (Some (now w + Z.of_N (elapsed (method url (now w))) + 10))]> db1)
           (now w + Z.of_N (elapsed (method url (now w))))
           (log w ++ [Incr (count_name url); Get (cached_name url); Fetch url;
                      Setex (cached_name url) 10 html])).



(** ** Scenarios *)

Definition url_A : pystr := lit "A".
Definition url_B : pystr := lit "B".

(** A page that reads "hello" and takes five time units to fetch. *)
Definition hello : fetcher String.string :=
  fun _ _ => Response (inr (lit "hello")) 5.

(** A page with an empty body. *)
Definition blank : fetcher String.string :=
  fun _ _ => Response (inr []) 5.

(** A host that cannot be reached. *)
Definition down : fetcher String.string :=
  fun _ _ => Response (inl "ConnectionError"%string) 3.

(** A host that comes up at time 8. *)
Definition waking : fetcher String.string :=
  fun url t => if t <? 8 then down url t else hello url t.

(** After a first failed call at time 0: a failure at 3, a miss at 16, a
    call on another url, a hit at 26. *)
Definition mixed_script : list action :=
  [Call url_A; Sleep 10; Call url_A; Call url_B; Call url_A].


(** A url that cannot be sent: a lone surrogate. *)
Definition url_bad : pystr := [0xD800].

(** A page whose text cannot be sent. *)
Definition surrogate_page : fetcher String.string :=
  fun _ _ => Response (inr [0xD800]) 2.

(** A Store where somebody else left bytes that are not UTF-8 under the
    cache key of "A". *)
Definition garbled : world :=
  World {[ lit "cached:A" := Redis.Entry [0xFF] (Some 30) ]} 0 [].

(** A Store where somebody else left a word under the counter key of "A". *)
Definition not_a_number : world :=
  World {[ lit "count:A" := Redis.Entry (lit "abc") None ]} 0 [].

(** A Store where the counter of "A" has reached the largest integer. *)
Definition exhausted : world :=
  World {[ lit "count:A" := Redis.Entry (Redis.ll2string Redis.LLONG_MAX) None ]} 0 [].

(** ** Keyspaces only the wrapper has written to *)

(** Under a counter key an integer without expiry, under a cache key the
    UTF-8 encoding of some text, and no other key. *)
Definition wf_entry (key : bytes) (e : Redis.entry) : Prop :=
  (exists u, key = count_key u /\ Redis.expire_at e = None
             /\ is_Some (Redis.string2ll (Redis.value e)))
  \/ (exists u s, key = cached_key u /\ Utf8.encode s = Some (Redis.value e)).

Definition wf_store (d : gmap (list Z) Redis.entry) : Prop :=
  forall key e, d !! key = Some e -> wf_entry key e.

(** Every cache entry is due to expire, no later than ten time units from
    now. *)
Definition short_lived (w : world) : Prop :=
  forall u e,
    db w !! cached_key u = Some e ->
    exists t, Redis.expire_at e = Some t /\ t <= now w + 10.

(** The world after a first call on "A", and a world with the same clock
    and the same two entries of "A" but another history and another
    url's counter in its keyspace. *)
Definition after_hello : world := (count_requests hello url_A empty_world).2.

Definition elsewhere : world :=
  World (<[lit "count:B" := Redis.Entry (lit "7") (Some 3)]> (db after_hello))
    (now after_hello) [Fetch url_B].

(** * Properties *)

(** ** UTF-8: decoding undoes encoding *)

Section Utf8Facts.

(** Setting the low bits of a multiple of [2^m]. *)
Lemma lor_high_low (a x m : Z) :
  0 <= m -> 0 <= x < 2 ^ m -> Z.lor (a * 2 ^ m) x = a * 2 ^ m + x.
Proof.
  intros Hm Hx.
  assert (Hland : Z.land (a * 2 ^ m) x = 0).
  { apply Z.bits_inj'. intros n Hn.
    rewrite Z.land_spec, Z.bits_0.
    destruct (Z.lt_ge_cases n m) as [Hlt | Hge].
    - rewrite Z.mul_pow2_bits_low by lia. reflexivity.
    - rewrite <- (Z.mod_small x (2 ^ m)) by lia.
      rewrite Z.mod_pow2_bits_high by lia.
      apply andb_false_r. }
  rewrite <- Z.lxor_lor by exact Hland.
  symmetry. apply Z.add_nocarry_lxor. exact Hland.
Qed.

Lemma lor_0x80 x : 0 <= x < 64 -> Z.lor 0x80 x = 128 + x.
Proof. intros H. apply (lor_high_low 2 x 6); simpl; lia. Qed.

Lemma lor_0xC0 x : 0 <= x < 32 -> Z.lor 0xC0 x = 192 + x.
Proof. intros H. apply (lor_high_low 3 x 6); simpl; lia. Qed.

Lemma lor_0xE0 x : 0 <= x < 16 -> Z.lor 0xE0 x = 224 + x.
Proof. intros H. apply (lor_high_low 7 x 5); simpl; lia. Qed.

Lemma lor_0xF0 x : 0 <= x < 8 -> Z.lor 0xF0 x = 240 + x.
Proof. intros H. apply (lor_high_low 15 x 4); simpl; lia. Qed.

Lemma land_0x3F x : Z.land x 0x3F = x mod 64.
Proof. apply (Z.land_ones x 6). lia. Qed.

Lemma decode_cons ch s1 :
  Utf8.decode (ch :: s1) =
  if ch <? 0 then None
  else if ch <? 0x80 then cons ch <$> Utf8.decode s1
  else if ch <? 0xC2 then None
  else if ch <? 0xE0 then
    match s1 with
    | ch2 :: s2 =>
        if Utf8.is_continuation ch2 then
          cons (Z.shiftl ch 6 + ch2 - (Z.shiftl 0xC0 6 + 0x80)) <$> Utf8.decode s2
        else None
    | _ => None
    end
  else if ch <? 0xF0 then
    match s1 with
    | ch2 :: ch3 :: s3 =>
        if Utf8.is_continuation ch2 && Utf8.is_continuation ch3
           && negb (if ch2 <? 0xA0 then ch =? 0xE0 else ch =? 0xED) then
          cons (Z.shiftl ch 12 + Z.shiftl ch2 6 + ch3
                - (Z.shiftl 0xE0 12 + Z.shiftl 0x80 6 + 0x80)) <$> Utf8.decode s3
        else None
    | _ => None
    end
  else if ch <? 0xF5 then
    match s1 with
    | ch2 :: ch3 :: ch4 :: s4 =>
        if Utf8.is_continuation ch2 && Utf8.is_continuation ch3
           && Utf8.is_continuation ch4
           && negb (if ch2 <? 0x90 then ch =? 0xF0 else ch =? 0xF4) then
          cons (Z.shiftl ch 18 + Z.shiftl ch2 12 + Z.shiftl ch3 6 + ch4
                - (Z.shiftl 0xF0 18 + Z.shiftl 0x80 12 + Z.shiftl 0x80 6 + 0x80))
            <$> Utf8.decode s4
        else None
    | _ => None
    end
  else None.
Proof. reflexivity. Qed.

(** Decide the comparisons of the goal from the bounds in the context. *)
Ltac decide_cmp :=
  repeat match goal with
  | |- context [?a <? ?b] =>
      (rewrite (proj2 (Z.ltb_lt a b)) by lia) || (rewrite (proj2 (Z.ltb_ge a b)) by lia)
  | |- context [?a <=? ?b] =>
      (rewrite (proj2 (Z.leb_le a b)) by lia) || (rewrite (proj2 (Z.leb_gt a b)) by lia)
  | |- context [?a =? ?b] =>
      (rewrite (proj2 (Z.eqb_eq a b)) by lia) || (rewrite (proj2 (Z.eqb_neq a b)) by lia)
  end.

Lemma decode_encode_char ch b rest :
  Utf8.encode_char ch = Some b ->
  Utf8.decode (b ++ rest) = cons ch <$> Utf8.decode rest.
Proof.
  unfold Utf8.encode_char, Utf8.is_surrogate.
  destruct (Z.ltb_spec ch 0); [discriminate|].
  destruct (Z.ltb_spec ch 0x80).
  { intros [= <-]. cbn [app]. rewrite decode_cons. decide_cmp. reflexivity. }
  destruct (Z.ltb_spec ch 0x800).
  { intros [= <-]. cbn [app].
    rewrite Z.shiftr_div_pow2, land_0x3F by lia. change (2 ^ 6) with 64.
    pose proof (Z.div_mod ch 64 ltac:(lia)) as Hdm.
    pose proof (Z.mod_pos_bound ch 64 ltac:(lia)) as Hr.
    set (q := ch / 64) in *. set (r := ch mod 64) in *.
    rewrite lor_0xC0, lor_0x80 by lia.
    rewrite decode_cons. unfold Utf8.is_continuation.
    rewrite !Z.shiftl_mul_pow2 by lia. change (2 ^ 6) with 64.
    decide_cmp. cbn [andb]. do 2 f_equal. lia. }
  destruct (Z.leb_spec 0xD800 ch); destruct (Z.leb_spec ch 0xDFFF);
    cbn [andb]; try discriminate.
  all: destruct (Z.ltb_spec ch 0x10000).
  all: try destruct (Z.leb_spec ch 0x10FFFF); try discriminate.
  all: try (exfalso; lia).
  all: intros [= <-]; cbn [app].
  all: rewrite ?Z.shiftr_div_pow2, ?land_0x3F by lia.
  all: change (2 ^ 6) with 64; change (2 ^ 12) with 4096;
       change (2 ^ 18) with 262144.
  all: pose proof (Z.div_mod ch 64 ltac:(lia)) as Hdm;
       pose proof (Z.mod_pos_bound ch 64 ltac:(lia)) as Hr;
       pose proof (Z.div_mod (ch / 64) 64 ltac:(lia)) as Hdm2;
       pose proof (Z.mod_pos_bound (ch / 64) 64 ltac:(lia)) as Hr2;
       pose proof (Z.div_mod (ch / 4096) 64 ltac:(lia)) as Hdm3;
       pose proof (Z.mod_pos_bound (ch / 4096) 64 ltac:(lia)) as Hr3;
       assert (Hq2 : ch / 4096 = ch / 64 / 64)
         by (rewrite Z.div_div by lia; reflexivity);
       assert (Hq3 : ch / 262144 = ch / 4096 / 64)
         by (rewrite Z.div_div by lia; reflexivity).
  all: set (r := ch mod 64) in *; set (r2 := (ch / 64) mod 64) in *;
       set (r3 := (ch / 4096) mod 64) in *;
       set (q3 := ch / 262144) in *; set (q2 := ch / 4096) in *;
       set (q := ch / 64) in *.
  all: rewrite ?lor_0xE0, ?lor_0xF0, ?lor_0x80 by lia.
  all: rewrite decode_cons; unfold Utf8.is_continuation.
  all: rewrite !Z.shiftl_mul_pow2 by lia.
  all: change (2 ^ 6) with 64; change (2 ^ 12) with 4096;
       change (2 ^ 18) with 262144.
  all: decide_cmp; cbn [andb].
  all: repeat match goal with
       | |- context [?a <? ?b] => destruct (Z.ltb_spec a b)
       end; decide_cmp; cbn [negb].
  all: do 2 f_equal; lia.
Qed.

Lemma decode_encode s b : Utf8.encode s = Some b -> Utf8.decode b = Some s.
Proof.
  revert b. induction s as [|ch s IH]; intros b; cbn [Utf8.encode].
  - intros [= <-]. reflexivity.
  - destruct (Utf8.encode_char ch) as [bc|] eqn:Hc; [|discriminate].
    destruct (Utf8.encode s) as [bs|]; [|discriminate].
    intros [= <-]. rewrite (decode_encode_char _ _ _ Hc), (IH bs eq_refl).
    reflexivity.
Qed.

Lemma encode_inj s1 s2 b :
  Utf8.encode s1 = Some b -> Utf8.encode s2 = Some b -> s1 = s2.
Proof.
  intros H1 H2. apply decode_encode in H1. apply decode_encode in H2. congruence.
Qed.

(** The encoder refuses exactly the surrogates and what lies outside the
    code space. *)
Lemma encode_char_is_Some ch :
  is_Some (Utf8.encode_char ch) <-> Utf8.encodable_char ch.
Proof.
  unfold Utf8.encode_char, Utf8.is_surrogate, Utf8.encodable_char.
  repeat match goal with
  | |- context [?a <? ?b] => destruct (Z.ltb_spec a b)
  | |- context [?a <=? ?b] => destruct (Z.leb_spec a b)
  end; cbn [andb]; split; intros Hch; try lia; try (eexists; reflexivity);
    destruct Hch; discriminate.
Qed.

Lemma encode_app s1 s2 :
  Utf8.encode (s1 ++ s2) =
  match Utf8.encode s1, Utf8.encode s2 with
  | Some b1, Some b2 => Some (b1 ++ b2)
  | _, _ => None
  end.
Proof.
  induction s1 as [|ch s1 IH]; cbn [app Utf8.encode].
  - destruct (Utf8.encode s2); reflexivity.
  - rewrite IH.
    destruct (Utf8.encode_char ch), (Utf8.encode s1), (Utf8.encode s2);
      try reflexivity.
    rewrite app_assoc. reflexivity.
Qed.

Lemma encode_count_name url :
  Utf8.encode (count_name url) = count_key <$> Utf8.encode url.
Proof.
  unfold count_name. rewrite encode_app.
  change (Utf8.encode (lit "count:")) with (Some (lit "count:")).
  destruct (Utf8.encode url); reflexivity.
Qed.

Lemma encode_cached_name url :
  Utf8.encode (cached_name url) = cached_key <$> Utf8.encode url.
Proof.
  unfold cached_name. rewrite encode_app.
  change (Utf8.encode (lit "cached:")) with (Some (lit "cached:")).
  destruct (Utf8.encode url); reflexivity.
Qed.

Lemma count_key_inj u1 u2 : count_key u1 = count_key u2 -> u1 = u2.
Proof. unfold count_key. apply app_inv_head. Qed.

Lemma cached_key_inj u1 u2 : cached_key u1 = cached_key u2 -> u1 = u2.
Proof. unfold cached_key. apply app_inv_head. Qed.

Lemma count_key_cached_key u1 u2 : count_key u1 <> cached_key u2.
Proof. unfold count_key, cached_key. cbn. discriminate. Qed.

End Utf8Facts.

(** ** The server's integers and commands *)

Section RedisFacts.

Lemma uint_of_bytes_of_uint d :
  Redis.uint_of_bytes (Redis.bytes_of_uint d) = Some d.
Proof.
  induction d; cbn [Redis.bytes_of_uint Redis.uint_of_bytes];
    rewrite ?IHd; reflexivity.
Qed.

Lemma bytes_of_uint_no_sign d s : Redis.bytes_of_uint d <> 45 :: s.
Proof. destruct d; discriminate. Qed.

Lemma string2ll_ll2string n :
  Redis.LLONG_MIN <= n <= Redis.LLONG_MAX ->
  Redis.string2ll (Redis.ll2string n) = Some n.
Proof.
  intros Hn. unfold Redis.string2ll.
  assert (Hd : match Redis.ll2string n with
               | 45 :: s' => Decimal.Neg <$> Redis.uint_of_bytes s'
               | _ => Decimal.Pos <$> Redis.uint_of_bytes (Redis.ll2string n)
               end = Some (Z.to_int n)).
  { unfold Redis.ll2string. destruct (Z.to_int n) as [d|d].
    - pose proof (bytes_of_uint_no_sign d) as Hs.
      destruct (Redis.bytes_of_uint d) as [|b s] eqn:Hb.
      + rewrite <- Hb, uint_of_bytes_of_uint. reflexivity.
      + assert (b <> 45) by (intros ->; eapply Hs; reflexivity).
        rewrite <- Hb, uint_of_bytes_of_uint.
        destruct b as [|p|p]; try reflexivity.
        do 6 (destruct p as [p|p|]; try reflexivity). congruence.
    - rewrite uint_of_bytes_of_uint. reflexivity. }
  rewrite Hd, DecimalZ.of_to, bool_decide_eq_true_2 by reflexivity.
  destruct (Z.leb_spec Redis.LLONG_MIN n); [|lia].
  destruct (Z.leb_spec n Redis.LLONG_MAX); [|lia].
  reflexivity.
Qed.

Lemma string2ll_range s n :
  Redis.string2ll s = Some n -> Redis.LLONG_MIN <= n <= Redis.LLONG_MAX.
Proof.
  unfold Redis.string2ll.
  destruct (match s with
            | 45 :: s' => Decimal.Neg <$> Redis.uint_of_bytes s'
            | _ => Decimal.Pos <$> Redis.uint_of_bytes s
            end) as [d|]; [|discriminate].
  cbv zeta.
  destruct (bool_decide _); cbn [andb]; [|discriminate].
  destruct (Z.leb_spec Redis.LLONG_MIN (Z.of_int d)); cbn [andb]; [|discriminate].
  destruct (Z.leb_spec (Z.of_int d) Redis.LLONG_MAX); [|discriminate].
  intros [= <-]. lia.
Qed.

(** An entry that is gone stays gone as the clock moves on. *)
Lemma lookup_None_later db t t' key :
  Redis.lookup db t key = None -> t <= t' -> Redis.lookup db t' key = None.
Proof.
  unfold Redis.lookup, Redis.expired. intros H Ht.
  destruct (db !! key) as [e|]; [|reflexivity].
  destruct (Redis.expire_at e) as [x|]; [|discriminate].
  destruct (Z.ltb_spec x t); [|discriminate].
  destruct (Z.ltb_spec x t'); [reflexivity|lia].
Qed.

(** An entry without expiry is found at any time. *)
Lemma lookup_no_expiry db t key e :
  db !! key = Some e -> Redis.expire_at e = None -> Redis.lookup db t key = Some e.
Proof.
  unfold Redis.lookup, Redis.expired. intros -> ->. reflexivity.
Qed.

Lemma lookup_Some db t key e :
  Redis.lookup db t key = Some e -> db !! key = Some e.
Proof.
  unfold Redis.lookup. destruct (db !! key) as [e'|]; [|discriminate].
  destruct (Redis.expired t e'); congruence.
Qed.

(** INCR touches its key only. *)
Lemma INCR_frame db t key n db1 key' :
  Redis.INCR db t key = inr (n, db1) -> key' <> key -> db1 !! key' = db !! key'.
Proof.
  unfold Redis.INCR. intros H Hne.
  destruct (Redis.lookup db t key) as [e|].
  - destruct (Redis.string2ll (Redis.value e)) as [c|]; [|discriminate].
    destruct (Redis.LLONG_MAX <=? c); [discriminate|].
    injection H as <- <-. apply lookup_insert_ne. congruence.
  - injection H as <- <-. apply lookup_insert_ne. congruence.
Qed.

(** What INCR leaves under its key: one more than the value a reader saw,
    with the expiry of the live entry, none for a fresh one. *)
Lemma INCR_inv db t key n db1 :
  Redis.INCR db t key = inr (n, db1) ->
  Redis.LLONG_MIN <= n <= Redis.LLONG_MAX /\
  n = match Redis.lookup db t key with
      | Some e => default 0 (Redis.string2ll (Redis.value e))
      | None => 0
      end + 1 /\
  db1 = <[key := Redis.Entry (Redis.ll2string n)
                   (Redis.lookup db t key ≫= Redis.expire_at)]> db.
Proof.
  unfold Redis.INCR.
  destruct (Redis.lookup db t key) as [e|].
  - destruct (Redis.string2ll (Redis.value e)) as [c|] eqn:Hc; [|discriminate].
    apply string2ll_range in Hc.
    destruct (Z.leb_spec Redis.LLONG_MAX c); [discriminate|].
    intros [= <- <-]. cbn. repeat split; lia.
  - intros [= <- <-]. cbn. repeat split; unfold Redis.LLONG_MIN, Redis.LLONG_MAX; lia.
Qed.

End RedisFacts.

(** ** The wrapper, path by path *)

Section Paths.
Context {E : Type}.
Implicit Types (method : fetcher E) (url : pystr) (w : world).

(** INCR on the counter key leaves the cached key as it was. *)
Lemma GET_after_INCR db t u n db1 u' :
  Redis.INCR db t (count_key u) = inr (n, db1) ->
  Redis.GET db1 t (cached_key u') = Redis.GET db t (cached_key u').
Proof.
  intros H. unfold Redis.GET, Redis.lookup.
  rewrite (INCR_frame _ _ _ _ _ (cached_key u') H); [reflexivity|].
  intros Heq. symmetry in Heq. revert Heq. apply count_key_cached_key.
Qed.

(** Every call follows one of the six paths. *)
Lemma count_requests_path method url w :
  path method url w (count_requests method url w).1 (count_requests method url w).2.
Proof.
  unfold count_requests, r_incr, r_get, r_setex, call, bytes_decode,
    encode_arg, record, bind, ret, raise.
  fold (count_name url). fold (cached_name url).
  cbn [db now log].
  rewrite encode_count_name, encode_cached_name.
  destruct (Utf8.encode url) as [u|] eqn:Hu; cbn [fmap option_fmap option_map].
  2: { apply path_bad_url. exact Hu. }
  cbn [db now log].
  destruct (Redis.INCR (db w) (now w) (count_key u)) as [e|[n db1]] eqn:Hincr.
  { cbn. eapply path_refused; eassumption. }
  cbn [db now log].
  destruct (Redis.GET db1 (now w) (cached_key u)) as [[|b0 b]|] eqn:Hget;
    cbn [truthy default from_option id db now log].
  2: { destruct (Utf8.decode (b0 :: b)) as [s|] eqn:Hdec; cbn [fst snd];
       rewrite <- !app_assoc; cbn [app].
       - pose proof (path_hit method url w u n db1 (b0 :: b) Hu Hincr Hget
                       ltac:(discriminate)) as P.
         rewrite Hdec in P. exact P.
       - pose proof (path_hit method url w u n db1 (b0 :: b) Hu Hincr Hget
                       ltac:(discriminate)) as P.
         rewrite Hdec in P. exact P. }
  all: destruct (outcome (method url (now w))) as [e|html] eqn:Hout;
    cbn [fst snd db now log]; rewrite <- ?app_assoc; cbn [app].
  all: try (eapply path_raised; try eassumption; rewrite Hget; reflexivity).
  all: destruct (Utf8.encode html) as [v|] eqn:Hv; cbn [fst snd db now log];
    rewrite <- ?app_assoc; cbn [app].
  all: try (eapply path_bad_html; try eassumption; rewrite Hget; reflexivity).
  all: eapply path_miss; try eassumption; rewrite Hget; reflexivity.
Qed.

End Paths.

(** ** What a call changes *)

(** Case analysis of a call along its path. *)
Ltac by_path method url w :=
  let P := fresh "P" in
  pose proof (count_requests_path method url w) as P;
  destruct (count_requests method url w) as [? ?];
  cbn [fst snd] in P; inversion P; subst; clear P.

Section Effects.
Context {E : Type}.
Implicit Types (method : fetcher E) (url : pystr) (w : world).

Lemma clock_moves_on method url w : now w <= now (count_requests method url w).2.
Proof. by_path method url w; cbn [snd now]; lia. Qed.

(** Keys other than the two of the url keep their raw entries. *)
Lemma others_kept method url w u key :
  Utf8.encode url = Some u ->
  key <> count_key u -> key <> cached_key u ->
  db (count_requests method url w).2 !! key = db w !! key.
Proof.
  intros Hu Hc Hd.
  by_path method url w; cbn [snd db]; try reflexivity;
    match goal with H : Utf8.encode url = Some _ |- _ =>
      rewrite Hu in H; injection H as <- end;
    rewrite ?lookup_insert_ne by congruence;
    eauto using INCR_frame.
Qed.

Lemma bad_url_nothing_kept method url w :
  Utf8.encode url = None -> db (count_requests method url w).2 = db w.
Proof.
  intros Hu. by_path method url w; cbn [snd db]; congruence.
Qed.

(** The first thing a call does is the INCR of its counter. *)
Lemma incr_comes_first method url w :
  exists tail,
    log (count_requests method url w).2 = log w ++ Incr (count_name url) :: tail.
Proof. by_path method url w; cbn [snd log]; eexists; reflexivity. Qed.

(** Reading an entry whose raw slot did not change, at a later time. *)
Lemma lookup_kept db db' t t' key :
  db' !! key = db !! key -> t <= t' ->
  (forall e, Redis.lookup db t key = Some e -> Redis.expire_at e = None) ->
  Redis.lookup db' t' key = Redis.lookup db t key.
Proof.
  intros Hraw Ht Hstable.
  destruct (Redis.lookup db t key) as [e|] eqn:Hl.
  - apply lookup_no_expiry; [|auto].
    rewrite Hraw. eapply lookup_Some; eassumption.
  - assert (Redis.lookup db t' key = None) as <- by eauto using lookup_None_later.
    unfold Redis.lookup. rewrite Hraw. reflexivity.
Qed.

Lemma stable_counter_no_expiry w url u e :
  Utf8.encode url = Some u -> stable_counter w url ->
  Redis.lookup (db w) (now w) (count_key u) = Some e -> Redis.expire_at e = None.
Proof.
  unfold stable_counter, entry_of. rewrite encode_count_name. intros -> Hs He.
  cbn [fmap option_fmap option_map] in Hs. rewrite He in Hs. tauto.
Qed.

(** A call on another url leaves a stable counter as it is. *)
Lemma counter_other_call method url url' w :
  url' <> url -> stable_counter w url ->
  stable_counter (count_requests method url' w).2 url /\
  counter (count_requests method url' w).2 url = counter w url.
Proof.
  intros Hne Hs.
  pose proof (clock_moves_on method url' w) as Hclock.
  destruct (Utf8.encode url) as [u|] eqn:Hu.
  2: { unfold stable_counter, counter, entry_of.
       rewrite encode_count_name, Hu. cbn. auto. }
  assert (Hraw : db (count_requests method url' w).2 !! count_key u
                 = db w !! count_key u).
  { destruct (Utf8.encode url') as [u'|] eqn:Hu'.
    - apply (others_kept method url' w u'); [assumption| |].
      + intros Heq. apply count_key_inj in Heq. subst u'.
        apply Hne. eapply encode_inj; eassumption.
      + apply count_key_cached_key.
    - rewrite bad_url_nothing_kept by assumption. reflexivity. }
  assert (Hl : Redis.lookup (db (count_requests method url' w).2)
                 (now (count_requests method url' w).2) (count_key u)
               = Redis.lookup (db w) (now w) (count_key u)).
  { apply lookup_kept; eauto using stable_counter_no_expiry. }
  revert Hs. unfold stable_counter, counter, entry_of.
  rewrite encode_count_name, Hu. cbn [fmap option_fmap option_map].
  rewrite Hl. auto.
Qed.

(** A pause leaves a stable counter as it is. *)
Lemma counter_sleep d url w :
  stable_counter w url ->
  stable_counter (sleep d w) url /\ counter (sleep d w) url = counter w url.
Proof.
  intros Hs.
  destruct (Utf8.encode url) as [u|] eqn:Hu.
  2: { unfold stable_counter, counter, entry_of.
       rewrite encode_count_name, Hu. cbn. auto. }
  assert (Hl : Redis.lookup (db (sleep d w)) (now (sleep d w)) (count_key u)
               = Redis.lookup (db w) (now w) (count_key u)).
  { apply lookup_kept; cbn [sleep db now];
      [reflexivity | lia | eauto using stable_counter_no_expiry]. }
  revert Hs. unfold stable_counter, counter, entry_of.
  rewrite encode_count_name, Hu. cbn [fmap option_fmap option_map].
  rewrite Hl. auto.
Qed.

End Effects.

(** ** The counter *)

Section Counter.
Context {E : Type}.
Implicit Types (method : fetcher E) (url : pystr) (w : world).

Lemma counter_unfold w url u :
  Utf8.encode url = Some u ->
  counter w url =
  match Redis.lookup (db w) (now w) (count_key u) with
  | Some e => default 0 (Redis.string2ll (Redis.value e))
  | None => 0
  end.
Proof.
  intros Hu. unfold counter, entry_of. rewrite encode_count_name, Hu. reflexivity.
Qed.

(** On a stable counter INCR stores one more than the value read, with no
    expiry. *)
Lemma counter_after_INCR w url u n db1 :
  Utf8.encode url = Some u -> stable_counter w url ->
  Redis.INCR (db w) (now w) (count_key u) = inr (n, db1) ->
  n = counter w url + 1 /\
  Redis.LLONG_MIN <= n <= Redis.LLONG_MAX /\
  db1 !! count_key u = Some (Redis.Entry (Redis.ll2string n) None).
Proof.
  intros Hu Hs Hincr.
  destruct (INCR_inv _ _ _ _ _ Hincr) as (Hrange & Hn & ->).
  rewrite (counter_unfold w url u Hu).
  repeat split; try lia.
  rewrite lookup_insert_eq. do 2 f_equal.
  destruct (Redis.lookup (db w) (now w) (count_key u)) as [e|] eqn:Hl;
    [|reflexivity].
  cbn. eauto using stable_counter_no_expiry.
Qed.

(** On a stable counter below the largest integer INCR is not refused. *)
Lemma INCR_not_refused w url u e :
  Utf8.encode url = Some u -> stable_counter w url ->
  counter w url < Redis.LLONG_MAX ->
  Redis.INCR (db w) (now w) (count_key u) <> inl e.
Proof.
  intros Hu Hs. rewrite (counter_unfold w url u Hu).
  revert Hs. unfold stable_counter, entry_of, Redis.INCR.
  rewrite encode_count_name, Hu. cbn [fmap option_fmap option_map].
  destruct (Redis.lookup (db w) (now w) (count_key u)) as [e0|]; [|discriminate].
  intros [_ [c Hc]]. rewrite Hc. cbn [default from_option id]. intros Hlt.
  destruct (Z.leb_spec Redis.LLONG_MAX c); [lia|discriminate].
Qed.

Lemma counter_read w url u n :
  Utf8.encode url = Some u ->
  Redis.LLONG_MIN <= n <= Redis.LLONG_MAX ->
  db w !! count_key u = Some (Redis.Entry (Redis.ll2string n) None) ->
  stable_counter w url /\ counter w url = n.
Proof.
  intros Hu Hn Hraw.
  unfold stable_counter, counter, entry_of.
  rewrite encode_count_name, Hu. cbn [fmap option_fmap option_map].
  rewrite (lookup_no_expiry _ _ _ _ Hraw eq_refl).
  cbn [Redis.value Redis.expire_at].
  rewrite string2ll_ll2string by assumption. cbn. eauto.
Qed.

(** A call leaves a stable counter one higher, whatever the call returns
    or raises after its INCR. *)
Lemma counter_same_call method url w :
  is_Some (Utf8.encode url) ->
  stable_counter w url ->
  counter w url < Redis.LLONG_MAX ->
  stable_counter (count_requests method url w).2 url /\
  counter (count_requests method url w).2 url = counter w url + 1.
Proof.
  intros [u Hu] Hs Hlt.
  by_path method url w; cbn [snd];
    try match goal with H : Utf8.encode url = _ |- _ =>
      rewrite Hu in H; try discriminate H; injection H as <- end.
  - exfalso. eapply INCR_not_refused; eassumption.
  - destruct (counter_after_INCR w url u n db1 Hu Hs) as (-> & Hr & Hraw);
      [assumption|]. apply (counter_read _ url u); assumption.
  - destruct (counter_after_INCR w url u n db1 Hu Hs) as (-> & Hr & Hraw);
      [assumption|]. apply (counter_read _ url u); assumption.
  - destruct (counter_after_INCR w url u n db1 Hu Hs) as (-> & Hr & Hraw);
      [assumption|]. apply (counter_read _ url u); assumption.
  - destruct (counter_after_INCR w url u n db1 Hu Hs) as (-> & Hr & Hraw);
      [assumption|]. apply (counter_read _ url u); try assumption.
    cbn [db]. rewrite lookup_insert_ne; [assumption|].
    intros Heq. symmetry in Heq. revert Heq. apply count_key_cached_key.
Qed.

Lemma calls_cons_same url script :
  calls url (Call url :: script) = S (calls url script).
Proof.
  unfold calls. cbn [List.filter is_call].
  rewrite bool_decide_eq_true_2 by reflexivity. reflexivity.
Qed.

Lemma calls_cons_other url url' script :
  url' <> url -> calls url (Call url' :: script) = calls url script.
Proof.
  intros Hne. unfold calls. cbn [List.filter is_call].
  rewrite bool_decide_eq_false_2 by assumption. reflexivity.
Qed.

(** After a script the counter of a url is up by the number of calls the
    script makes on that url. *)
Lemma counter_after_run method url script :
  is_Some (Utf8.encode url) ->
  forall w,
    stable_counter w url ->
    counter w url + Z.of_nat (calls url script) <= Redis.LLONG_MAX ->
    stable_counter (run method script w).2 url /\
    counter (run method script w).2 url
      = counter w url + Z.of_nat (calls url script).
Proof.
  intros Hu. induction script as [|[url'|d] script IH]; intros w Hs Hmax.
  - cbn. split; [assumption|]. unfold calls. cbn. lia.
  - cbn [run].
    destruct (count_requests method url' w) as [r w1] eqn:Hcall.
    destruct (run method script w1) as [rs w2] eqn:Hrun.
    cbn [snd].
    assert (Hw1 : w1 = (count_requests method url' w).2) by (rewrite Hcall; reflexivity).
    assert (Hw2 : w2 = (run method script w1).2) by (rewrite Hrun; reflexivity).
    destruct (decide (url' = url)) as [->|Hne].
    + rewrite calls_cons_same in *.
      destruct (counter_same_call method url w Hu Hs ltac:(lia)) as [Hs1 Hc1].
      rewrite <- Hw1 in Hs1, Hc1.
      destruct (IH w1 Hs1 ltac:(lia)) as [Hs2 Hc2].
      rewrite <- Hw2 in Hs2, Hc2. split; [assumption|lia].
    + rewrite calls_cons_other in * by assumption.
      destruct (counter_other_call method url url' w Hne Hs) as [Hs1 Hc1].
      rewrite <- Hw1 in Hs1, Hc1.
      destruct (IH w1 Hs1 ltac:(lia)) as [Hs2 Hc2].
      rewrite <- Hw2 in Hs2, Hc2. split; [assumption|lia].
  - cbn [run].
    destruct (counter_sleep d url w Hs) as [Hs1 Hc1].
    change (calls url (Sleep d :: script)) with (calls url script) in *.
    destruct (IH (sleep d w) Hs1 ltac:(lia)) as [Hs2 Hc2].
    split; [assumption|lia].
Qed.

(** From an empty Store the counter is the number of calls made. *)
Lemma counter_from_empty_store method url script :
  is_Some (Utf8.encode url) ->
  Z.of_nat (calls url script) <= Redis.LLONG_MAX ->
  counter (run method script empty_world).2 url = Z.of_nat (calls url script).
Proof.
  intros Hu Hmax.
  assert (Hs : stable_counter empty_world url).
  { unfold stable_counter, entry_of. destruct (Utf8.encode (count_name url)); exact I. }
  assert (H0 : counter empty_world url = 0).
  { unfold counter, entry_of. destruct (Utf8.encode (count_name url)); reflexivity. }
  destruct (counter_after_run method url script Hu empty_world Hs) as [_ Hc]; lia.
Qed.

End Counter.

(** ** Hits and misses *)

(** Case analysis of a call whose result and final world are named. *)
Ltac path_of H :=
  match type of H with
  | count_requests ?method ?url ?w = _ =>
      let P := fresh "P" in
      pose proof (count_requests_path method url w) as P;
      rewrite H in P; cbn [fst snd] in P; inversion P; subst; clear P
  end.

(** Count the calls of the decorated function in the logs at hand. *)
Ltac count_fetches :=
  unfold fetches in *; cbn [log sleep] in *;
  rewrite ?List.filter_app, ?length_app in *;
  cbn [List.filter is_fetch] in *;
  rewrite ?bool_decide_eq_true_2 in * by reflexivity;
  cbn [List.length] in *.

Section HitMiss.
Context {E : Type}.
Implicit Types (method : fetcher E) (url : pystr) (w : world).

Lemma cached_unfold w url u :
  Utf8.encode url = Some u ->
  cached w url = Redis.GET (db w) (now w) (cached_key u).
Proof.
  intros Hu. unfold cached, entry_of. rewrite encode_cached_name, Hu. reflexivity.
Qed.

Lemma cached_bad_url w url : Utf8.encode url = None -> cached w url = None.
Proof.
  intros Hu. unfold cached, entry_of. rewrite encode_cached_name, Hu. reflexivity.
Qed.

(** The cache as the call reads it is the cache a reader saw before. *)
Lemma GET_in_call w url u n db1 :
  Utf8.encode url = Some u ->
  Redis.INCR (db w) (now w) (count_key u) = inr (n, db1) ->
  Redis.GET db1 (now w) (cached_key u) = cached w url.
Proof.
  intros Hu Hincr. rewrite (cached_unfold w url u Hu).
  eapply GET_after_INCR. eassumption.
Qed.

(** A call that returned content and called the decorated function went
    down the miss path. *)
Lemma miss_inv method url w c w1 :
  count_requests method url w = (inr c, w1) ->
  fetches url w1 = S (fetches url w) ->
  exists u n db1 v,
    Utf8.encode url = Some u /\
    Redis.INCR (db w) (now w) (count_key u) = inr (n, db1) /\
    truthy (cached w url) = false /\
    outcome (method url (now w)) = inr c /\
    Utf8.encode c = Some v /\
    w1 = World
           (<[cached_key u :=
                Redis.Entry v
                  (Some (now w + Z.of_N (elapsed (method url (now w))) + 10))]> db1)
           (now w + Z.of_N (elapsed (method url (now w))))
           (log w ++ [Incr (count_name url); Get (cached_name url); Fetch url;
                      Setex (cached_name url) 10 c]).
Proof.
  intros Hcall Hf. path_of Hcall.
  - exfalso. count_fetches. lia.
  - exists u, n, db1, v. rewrite <- (GET_in_call w url u n db1) by assumption.
    repeat split; assumption.
Qed.

(** The entry a miss leaves is read back until ten time units have passed,
    and not after. *)
Lemma cached_after_write db1 t lg url u v d :
  Utf8.encode url = Some u ->
  cached (sleep d (World (<[cached_key u := Redis.Entry v (Some (t + 10))]> db1) t lg))
    url
  = if Z.of_N d <=? 10 then Some v else None.
Proof.
  intros Hu. rewrite (cached_unfold _ url u Hu).
  unfold Redis.GET, Redis.lookup, Redis.expired. cbn [sleep db now].
  rewrite lookup_insert_eq. cbn [Redis.expire_at].
  destruct (Z.leb_spec (Z.of_N d) 10); destruct (Z.ltb_spec (t + 10) (t + Z.of_N d));
    try lia; reflexivity.
Qed.

(** A call that finds non-empty, well-formed content in the cache and is
    not refused returns it decoded, without calling the decorated function
    and without touching any key but the counter. *)
Lemma hit_serves_cache method url w b s r w' :
  cached w url = Some b -> b <> [] -> Utf8.decode b = Some s ->
  count_requests method url w = (r, w') ->
  refused r = false ->
  r = inr s /\
  log w' = log w ++ [Incr (count_name url); Get (cached_name url)] /\
  fetches url w' = fetches url w /\
  now w' = now w /\
  forall key, Utf8.encode (count_name url) <> Some key -> db w' !! key = db w !! key.
Proof.
  intros Hcached Hb Hdec Hcall Href.
  assert (Hfalsy : truthy (cached w url) = false -> False).
  { rewrite Hcached. destruct b; [contradiction|discriminate]. }
  path_of Hcall; try discriminate Href;
    try match goal with H : context [Redis.GET _ _ _] |- _ =>
      erewrite GET_in_call in H by eassumption end;
    try (exfalso; auto; fail).
  - rewrite cached_bad_url in Hcached by assumption. discriminate.
  - assert (b0 = b) as -> by congruence.
    rewrite Hdec. repeat split; try reflexivity.
    + count_fetches. lia.
    + intros key Hkey. cbn [db]. eapply INCR_frame; [eassumption|].
      intros ->. apply Hkey.
      rewrite encode_count_name.
      match goal with H : Utf8.encode url = Some _ |- _ => rewrite H end.
      reflexivity.
Qed.

End HitMiss.

(** ** The specified properties *)

Section Specified.
Context {E : Type}.
Implicit Types (method : fetcher E) (url : pystr) (w : world).

(** C1. Every call begins with the INCR of the counter of its url, before
    the cache is read or anything else is done; and after any script (calls
    on this url that hit, miss or fail, calls on other urls, pauses) the
    counter of the url is its value before plus the number of calls made
    on the url. The counter is one the Store can keep counting: the url
    can be sent, the entry has no expiry and holds an integer, and the
    64-bit range is not exhausted. *)
Theorem counter_counts_every_call method url :
  (forall w, exists tail,
      log (count_requests method url w).2
      = log w ++ Incr (count_name url) :: tail) /\
  (forall script w,
      is_Some (Utf8.encode url) ->
      stable_counter w url ->
      counter w url + Z.of_nat (calls url script) <= Redis.LLONG_MAX ->
      counter (run method script w).2 url
      = counter w url + Z.of_nat (calls url script)).
Proof.
  split.
  - apply incr_comes_first.
  - intros script w Hu Hs Hmax.
    apply (counter_after_run method url script Hu w Hs Hmax).
Qed.

(** C7. A call on one url changes no Store key other than the counter key
    and the cache key of that url; in particular the counter entry and the
    cache entry of any other url are left as they were. *)
Theorem other_keys_untouched method url w :
  (forall key,
      Utf8.encode (count_name url) <> Some key ->
      Utf8.encode (cached_name url) <> Some key ->
      db (count_requests method url w).2 !! key = db w !! key) /\
  (forall url2 key,
      url <> url2 ->
      Utf8.encode (count_name url2) = Some key
        \/ Utf8.encode (cached_name url2) = Some key ->
      db (count_requests method url w).2 !! key = db w !! key).
Proof.
  assert (Hfirst : forall key,
      Utf8.encode (count_name url) <> Some key ->
      Utf8.encode (cached_name url) <> Some key ->
      db (count_requests method url w).2 !! key = db w !! key).
  { intros key Hc Hd.
    destruct (Utf8.encode url) as [u|] eqn:Hu.
    - rewrite encode_count_name, Hu in Hc. rewrite encode_cached_name, Hu in Hd.
      apply (others_kept method url w u key Hu); intros ->; [apply Hc | apply Hd];
        reflexivity.
    - rewrite bad_url_nothing_kept by assumption. reflexivity. }
  split; [exact Hfirst|].
  intros url2 key Hne Hkey. apply Hfirst.
  - intros H1. destruct Hkey as [H2|H2].
    + pose proof (encode_inj _ _ _ H1 H2) as Heq.
      apply app_inv_head in Heq. contradiction.
    + pose proof (encode_inj _ _ _ H1 H2) as Heq. discriminate Heq.
  - intros H1. destruct Hkey as [H2|H2].
    + pose proof (encode_inj _ _ _ H1 H2) as Heq. discriminate Heq.
    + pose proof (encode_inj _ _ _ H1 H2) as Heq.
      apply app_inv_head in Heq. contradiction.
Qed.

End Specified.

Lemma counter_counts_every_call_witness :
  counter (run waking mixed_script (run waking [Call url_A] empty_world).2).2 url_A
  = counter (run waking [Call url_A] empty_world).2 url_A
    + Z.of_nat (calls url_A mixed_script).
Proof.
  apply (proj2 (counter_counts_every_call waking url_A)).
  - vm_compute. eauto.
  - vm_compute. eauto.
  - vm_compute. discriminate.
Defined.

Lemma other_keys_untouched_witness :
  db (count_requests hello url_A (run hello [Call url_B] empty_world).2).2
    !! (lit "count:B")
  = db (run hello [Call url_B] empty_world).2 !! (lit "count:B").
Proof.
  apply (proj2 (other_keys_untouched hello url_A
                  (run hello [Call url_B] empty_world).2) url_B).
  - discriminate.
  - left. reflexivity.
Defined.

Section Misses.
Context {E : Type}.
Implicit Types (method : fetcher E) (url : pystr) (w : world).

(** C3. When no cache entry is found for the url (never written, or
    expired) and the decorated function returns [html], a call that does
    not fail in the Store client calls the decorated function exactly once,
    issues one SETEX of [html] under the cache name with 10 as expiry, after
    which the cache slot holds the encoding of [html] and expires ten units
    after the write, and returns [html] itself. *)
Theorem miss_fetches_once_and_caches method url w html d r w' :
  cached w url = None ->
  method url (now w) = Response (inr html) d ->
  count_requests method url w = (r, w') ->
  store_failed r = false ->
  r = inr html /\
  log w' = log w ++ [Incr (count_name url); Get (cached_name url); Fetch url;
                     Setex (cached_name url) 10 html] /\
  fetches url w' = S (fetches url w) /\
  now w' = now w + Z.of_N d /\
  exists v,
    Utf8.encode html = Some v /\
    entry_of w' (cached_name url) = Some (Redis.Entry v (Some (now w' + 10))).
Proof.
  intros Hcached Hm Hcall Hok.
  path_of Hcall; try discriminate Hok;
    try match goal with H : context [Redis.GET _ _ _] |- _ =>
      erewrite GET_in_call in H by eassumption; rewrite Hcached in H end;
    try discriminate;
    match goal with H : outcome _ = _ |- _ =>
      rewrite Hm in H; cbn [outcome] in H; try discriminate H end.
  match goal with H : inr _ = inr _ |- _ => injection H as -> end.
  rewrite Hm. cbn [elapsed log now].
  repeat split; try reflexivity.
  - count_fetches. lia.
  - exists v. split; [assumption|].
    unfold entry_of. rewrite encode_cached_name.
    match goal with H : Utf8.encode url = Some _ |- _ => rewrite H end.
    cbn [fmap option_fmap option_map db now].
    unfold Redis.lookup, Redis.expired. rewrite lookup_insert_eq.
    cbn [Redis.expire_at].
    destruct (Z.ltb_spec (now w + Z.of_N d + 10) (now w + Z.of_N d)); [lia|].
    reflexivity.
Qed.

(** C4. When a call reaches the decorated function and that function
    raises, the call raises the same exception; the keyspace it leaves is
    the keyspace it found with the one INCR of the counter applied, so the
    counter is one higher, the cache entry of the url is as it was, and no
    SETEX was issued. *)
Theorem fetch_failure_propagates method url w e r w' :
  count_requests method url w = (r, w') ->
  fetches url w' = S (fetches url w) ->
  outcome (method url (now w)) = inl e ->
  r = inl (Raised e) /\
  (exists u,
      Utf8.encode url = Some u /\
      Redis.INCR (db w) (now w) (count_key u) = inr (counter w url + 1, db w')) /\
  (stable_counter w url -> counter w' url = counter w url + 1) /\
  (forall key, Utf8.encode (cached_name url) = Some key ->
               db w' !! key = db w !! key) /\
  (forall name t v, In (Setex name t v) (log w') -> In (Setex name t v) (log w)).
Proof.
  intros Hcall Hf He.
  path_of Hcall;
    try (exfalso; count_fetches; lia);
    try (match goal with H : outcome _ = inr _ |- _ =>
           rewrite He in H; discriminate H end).
  match goal with H : outcome _ = inl _ |- _ =>
    rewrite He in H; injection H as <- end.
  match goal with H : Redis.INCR _ _ _ = _ |- _ => rename H into Hincr end.
  match goal with H : Utf8.encode url = Some _ |- _ => rename H into Hu end.
  cbn [db log].
  destruct (INCR_inv _ _ _ _ _ Hincr) as (Hrange & Hn & Hdb).
  rewrite <- (counter_unfold w url u Hu) in Hn.
  repeat split.
  - exists u. split; [assumption|]. rewrite <- Hn. assumption.
  - intros Hs.
    destruct (counter_after_INCR w url u n db1 Hu Hs Hincr) as (-> & Hr & Hraw).
    apply (counter_read _ url u); assumption.
  - intros key Hkey. rewrite encode_cached_name, Hu in Hkey.
    injection Hkey as <-. eapply INCR_frame; [eassumption|].
    intros Heq. symmetry in Heq. revert Heq. apply count_key_cached_key.
  - intros name t v Hin. apply in_app_or in Hin as [Hin|Hin]; [assumption|].
    cbn in Hin. intuition discriminate.
Qed.

End Misses.

Lemma miss_fetches_once_and_caches_witness :
  (count_requests hello url_A empty_world).1 = inr (lit "hello") /\
  fetches url_A (count_requests hello url_A empty_world).2 = 1%nat.
Proof.
  destruct (miss_fetches_once_and_caches hello url_A empty_world (lit "hello") 5
              (count_requests hello url_A empty_world).1
              (count_requests hello url_A empty_world).2)
    as (Hr & _ & Hf & _).
  - reflexivity.
  - reflexivity.
  - vm_compute. reflexivity.
  - vm_compute. reflexivity.
  - split; [exact Hr | exact Hf].
Defined.

Lemma fetch_failure_propagates_witness :
  (count_requests down url_A empty_world).1 = inl (Raised "ConnectionError"%string).
Proof.
  destruct (fetch_failure_propagates down url_A empty_world "ConnectionError"%string
              (count_requests down url_A empty_world).1
              (count_requests down url_A empty_world).2)
    as (Hr & _).
  - vm_compute. reflexivity.
  - vm_compute. reflexivity.
  - reflexivity.
  - exact Hr.
Defined.

Section Expiry.
Context {E : Type}.
Implicit Types (method : fetcher E) (url : pystr) (w : world).

(** C6. After a call that missed and cached what it fetched, once more than
    ten time units have passed the cache entry is gone, and the next call on
    the url, unless the server refuses its INCR, reads the cache, finds
    nothing and calls the decorated function again. *)
Theorem expired_entry_is_refetched method url w c w1 d r2 w2 :
  count_requests method url w = (inr c, w1) ->
  fetches url w1 = S (fetches url w) ->
  10 < Z.of_N d ->
  count_requests method url (sleep d w1) = (r2, w2) ->
  refused r2 = false ->
  cached (sleep d w1) url = None /\
  (exists tail,
      log w2 = log w1 ++ Incr (count_name url) :: Get (cached_name url)
                 :: Fetch url :: tail) /\
  fetches url w2 = S (S (fetches url w)).
Proof.
  intros Hcall1 Hf1 Hd Hcall2 Href.
  destruct (miss_inv method url w c w1 Hcall1 Hf1)
    as (u & n & db1 & v & Hu & _ & _ & _ & _ & Hw1).
  assert (Hgone : cached (sleep d w1) url = None).
  { rewrite Hw1, (cached_after_write _ _ _ url u) by assumption.
    destruct (Z.leb_spec (Z.of_N d) 10); [lia|reflexivity]. }
  clear Hw1 Hcall1. split; [assumption|].
  assert (Hlog : log (sleep d w1) = log w1) by reflexivity.
  path_of Hcall2; try discriminate Href; try congruence;
    try match goal with H : Redis.GET _ _ _ = Some _ |- _ =>
      erewrite GET_in_call in H by eassumption; congruence end;
    rewrite Hlog; (split; [eexists; reflexivity|]);
    rewrite <- Hf1; count_fetches; lia.
Qed.

(** C8. A call issues no SETEX other than the one on the cache name of its
    url, and that one with 10 as expiry; and whenever a call writes the
    cache, whatever entry and expiry the slot had before, the slot then
    expires ten units after the write: the content is read back up to ten
    units later and not after. *)
Theorem cache_writes_expire_after_ten method url w r w' :
  count_requests method url w = (r, w') ->
  (forall name t v,
      In (Setex name t v) (log w') ->
      In (Setex name t v) (log w) \/ (name = cached_name url /\ t = 10)) /\
  (forall html,
      r = inr html -> fetches url w' = S (fetches url w) ->
      exists v,
        Utf8.encode html = Some v /\
        entry_of w' (cached_name url) = Some (Redis.Entry v (Some (now w' + 10))) /\
        forall d, cached (sleep d w') url
                  = if Z.of_N d <=? 10 then Some v else None).
Proof.
  intros Hcall. split.
  - intros name t v Hin.
    path_of Hcall; cbn [log] in Hin; apply in_app_or in Hin as [Hin|Hin];
      auto; cbn in Hin;
      repeat match goal with H : _ \/ _ |- _ => destruct H end;
      try discriminate; try contradiction;
      match goal with H : Setex _ _ _ = Setex _ _ _ |- _ =>
        injection H as <- <- <- end; auto.
  - intros html -> Hf.
    destruct (miss_inv method url w html w' Hcall Hf)
      as (u & n & db1 & v & Hu & _ & _ & _ & Hv & ->).
    exists v. split; [assumption|]. split.
    + unfold entry_of. rewrite encode_cached_name, Hu.
      cbn [fmap option_fmap option_map db now].
      unfold Redis.lookup, Redis.expired. rewrite lookup_insert_eq.
      cbn [Redis.expire_at].
      match goal with |- context [?a <? ?b] =>
        destruct (Z.ltb_spec a b); [lia|reflexivity] end.
    + intros d. apply cached_after_write. assumption.
Qed.

(** C9. What a miss returns is the very result of the decorated function;
    what it stores is the UTF-8 encoding of that result; and a later call
    that is served from the cache (which can only be within ten units of
    the write) returns the decoding of the stored bytes, which is the
    content that was stored. *)
Theorem cached_content_round_trip method url w c w1 d r2 w2 :
  count_requests method url w = (inr c, w1) ->
  fetches url w1 = S (fetches url w) ->
  count_requests method url (sleep d w1) = (r2, w2) ->
  log w2 = log w1 ++ [Incr (count_name url); Get (cached_name url)] ->
  outcome (method url (now w)) = inr c /\
  Z.of_N d <= 10 /\
  exists b,
    Utf8.encode c = Some b /\
    cached w1 url = Some b /\
    cached (sleep d w1) url = Some b /\
    Utf8.decode b = Some c /\
    r2 = inr c.
Proof.
  intros Hcall1 Hf1 Hcall2 Hlog2.
  destruct (miss_inv method url w c w1 Hcall1 Hf1)
    as (u & n & db1 & v & Hu & _ & _ & Hout & Hv & Hw1).
  split; [assumption|].
  assert (Hread : forall d', cached (sleep d' w1) url
                             = if Z.of_N d' <=? 10 then Some v else None).
  { intros d'. rewrite Hw1. apply cached_after_write. assumption. }
  assert (Hnow : cached w1 url = Some v).
  { specialize (Hread 0%N). cbn [Z.of_N Z.leb Z.compare] in Hread.
    rewrite <- Hread. unfold sleep, cached, entry_of. cbn [db now Z.of_N].
    rewrite Z.add_0_r. reflexivity. }
  clear Hw1 Hcall1.
  assert (Hlog : log (sleep d w1) = log w1) by reflexivity.
  path_of Hcall2; cbn [log] in Hlog2; rewrite Hlog in Hlog2;
    apply app_inv_head in Hlog2; try discriminate Hlog2.
  match goal with H : Redis.GET _ _ _ = Some _ |- _ =>
    erewrite GET_in_call in H by eassumption; rewrite Hread in H;
    rename H into Hget end.
  destruct (Z.leb_spec (Z.of_N d) 10); [|discriminate].
  injection Hget as ->.
  split; [assumption|]. exists b.
  rewrite Hread. destruct (Z.leb_spec (Z.of_N d) 10); [|lia].
  rewrite (decode_encode c b Hv). auto.
Qed.

(** INCR reads and writes the keyspace at its key only. *)
Lemma INCR_refused_elsewhere d1 d2 t key e :
  d1 !! key = d2 !! key ->
  Redis.INCR d1 t key = inl e -> Redis.INCR d2 t key = inl e.
Proof.
  unfold Redis.INCR, Redis.lookup. intros <-.
  destruct (d1 !! key) as [e0|]; [|discriminate].
  destruct (Redis.expired t e0); [discriminate|].
  destruct (Redis.string2ll (Redis.value e0)); [|auto].
  destruct (Redis.LLONG_MAX <=? z); [auto|discriminate].
Qed.

Lemma INCR_elsewhere d1 d2 t key n d1' :
  d1 !! key = d2 !! key ->
  Redis.INCR d1 t key = inr (n, d1') ->
  exists d2',
    Redis.INCR d2 t key = inr (n, d2') /\
    forall k, d1 !! k = d2 !! k -> d1' !! k = d2' !! k.
Proof.
  unfold Redis.INCR, Redis.lookup. intros <-.
  destruct (d1 !! key) as [e0|].
  - destruct (Redis.expired t e0).
    + intros [= <- <-]. eexists. split; [reflexivity|].
      intros k Hk. rewrite !lookup_insert. destruct (decide (key = k)); auto.
    + destruct (Redis.string2ll (Redis.value e0)); [|discriminate].
      destruct (Redis.LLONG_MAX <=? z); [discriminate|].
      intros [= <- <-]. eexists. split; [reflexivity|].
      intros k Hk. rewrite !lookup_insert. destruct (decide (key = k)); auto.
  - intros [= <- <-]. eexists. split; [reflexivity|].
    intros k Hk. rewrite !lookup_insert. destruct (decide (key = k)); auto.
Qed.

Lemma GET_elsewhere (d1 d2 : gmap (list Z) Redis.entry) t key :
  d1 !! key = d2 !! key -> Redis.GET d1 t key = Redis.GET d2 t key.
Proof. unfold Redis.GET, Redis.lookup. intros <-. reflexivity. Qed.

(** No state admits two paths: the six paths exclude one another. *)
Lemma path_functional method url w r r' w1 w1' :
  path method url w r w1 -> path method url w r' w1' -> r = r' /\ w1 = w1'.
Proof.
  intros P P'.
  destruct P; inversion P'; subst;
    repeat match goal with
    | H : Utf8.encode url = _, H' : Utf8.encode url = _ |- _ =>
        rewrite H in H'; try discriminate H'; injection H' as <-
    | H : Redis.INCR ?d ?t ?k = _, H' : Redis.INCR ?d ?t ?k = _ |- _ =>
        rewrite H in H'; try discriminate H'; injection H' as <-; try subst
    | H : Redis.GET ?d ?t ?k = Some _, H' : context [Redis.GET ?d ?t ?k] |- _ =>
        rewrite H in H'
    | H : outcome ?x = _, H' : outcome ?x = _ |- _ =>
        rewrite H in H'; try discriminate H'; injection H' as <-
    | H : Utf8.encode ?h = _, H' : Utf8.encode ?h = _ |- _ =>
        rewrite H in H'; try discriminate H'; injection H' as <-
    end;
    try (split; reflexivity);
    try match goal with H : Some _ = Some _ |- _ => injection H as <- end;
    try (split; reflexivity);
    try match goal with
        | H : truthy (Some ?b) = false, Hb : ?b <> [] |- _ =>
            destruct b; [contradiction|discriminate H]
        end.
Qed.

(** What a call reads of the world: the clock, the raw entries under the
    two keys of its url and, when the cache read is empty, the decorated
    function at this url and time. Along a path another world that agrees
    on those follows the same path. *)
Lemma path_elsewhere (m1 m2 : fetcher E) url w1 w2 r w1' :
  now w1 = now w2 ->
  (forall key,
      Utf8.encode (count_name url) = Some key
        \/ Utf8.encode (cached_name url) = Some key ->
      db w1 !! key = db w2 !! key) ->
  (truthy (cached w1 url) = false -> m1 url (now w1) = m2 url (now w2)) ->
  path m1 url w1 r w1' ->
  exists w2',
    path m2 url w2 r w2' /\
    now w1' = now w2' /\
    (exists evs, log w1' = log w1 ++ evs /\ log w2' = log w2 ++ evs) /\
    (forall key, db w1 !! key = db w2 !! key -> db w1' !! key = db w2' !! key).
Proof.
  intros Hnow Hkeys Hm P.
  assert (Hck : forall u, Utf8.encode url = Some u ->
                          db w1 !! count_key u = db w2 !! count_key u).
  { intros u Hu. apply Hkeys. left. rewrite encode_count_name, Hu. reflexivity. }
  assert (Hdk : forall u, Utf8.encode url = Some u ->
                          db w1 !! cached_key u = db w2 !! cached_key u).
  { intros u Hu. apply Hkeys. right. rewrite encode_cached_name, Hu. reflexivity. }
  destruct P as [Hu | u e Hu Hincr | u n d1 b Hu Hincr Hget Hb
                 | u n d1 e Hu Hincr Hget Hout
                 | u n d1 html Hu Hincr Hget Hout Hhtml
                 | u n d1 html v Hu Hincr Hget Hout Hhtml].
  - eexists. split; [apply path_bad_url; assumption|].
    cbn [now log db]. repeat split; eauto.
  - eexists. split.
    + eapply path_refused; [eassumption|]. rewrite <- Hnow.
      eapply INCR_refused_elsewhere; [apply Hck|]; eassumption.
    + cbn [now log db]. repeat split; eauto.
  - destruct (INCR_elsewhere _ (db w2) _ _ _ _ (Hck u Hu) Hincr)
      as (d2 & Hincr2 & Hagree).
    eexists. split.
    + eapply path_hit; [eassumption| rewrite <- Hnow; eassumption | | assumption].
      rewrite <- Hnow, <- Hget. symmetry. apply GET_elsewhere. auto.
    + cbn [now log db]. repeat split; eauto.
  - destruct (INCR_elsewhere _ (db w2) _ _ _ _ (Hck u Hu) Hincr)
      as (d2 & Hincr2 & Hagree).
    assert (Hsame : m1 url (now w1) = m2 url (now w2)).
    { apply Hm. erewrite <- GET_in_call by eassumption. assumption. }
    eexists. split.
    + eapply path_raised; [eassumption| rewrite <- Hnow; eassumption | |].
      * rewrite <- Hnow, <- Hget. f_equal. symmetry. apply GET_elsewhere. auto.
      * rewrite <- Hsame. eassumption.
    + cbn [now log db]. rewrite <- Hsame, <- Hnow. repeat split; eauto.
  - destruct (INCR_elsewhere _ (db w2) _ _ _ _ (Hck u Hu) Hincr)
      as (d2 & Hincr2 & Hagree).
    assert (Hsame : m1 url (now w1) = m2 url (now w2)).
    { apply Hm. erewrite <- GET_in_call by eassumption. assumption. }
    eexists. split.
    + eapply path_bad_html; [eassumption| rewrite <- Hnow; eassumption | | |].
      * rewrite <- Hnow, <- Hget. f_equal. symmetry. apply GET_elsewhere. auto.
      * rewrite <- Hsame. eassumption.
      * assumption.
    + cbn [now log db]. rewrite <- Hsame, <- Hnow. repeat split; eauto.
  - destruct (INCR_elsewhere _ (db w2) _ _ _ _ (Hck u Hu) Hincr)
      as (d2 & Hincr2 & Hagree).
    assert (Hsame : m1 url (now w1) = m2 url (now w2)).
    { apply Hm. erewrite <- GET_in_call by eassumption. assumption. }
    eexists. split.
    + eapply path_miss; [eassumption| rewrite <- Hnow; eassumption | | |].
      * rewrite <- Hnow, <- Hget. f_equal. symmetry. apply GET_elsewhere. auto.
      * rewrite <- Hsame. eassumption.
      * eassumption.
    + cbn [now log db]. rewrite <- Hsame, <- Hnow.
      split; [reflexivity|]. split; [eauto|].
      intros key Hkey. rewrite !lookup_insert.
      destruct (decide (cached_key u = key)); auto.
Qed.

(** C10. The result and the effects of a call are a function of what the
    call reads and of nothing else. Two calls on the same url at the same
    clock, from keyspaces that agree under the counter key and the cache
    key of the url (and may differ anywhere else, as may the histories),
    with decorated functions that answer alike at this url and time (they
    need not even do that when the cache read is not empty), return the
    same result, make the same calls on their collaborators, end at the
    same clock, and leave every key on which the keyspaces agreed in
    agreement; so from identical keyspaces the final keyspaces are
    identical. *)
Theorem runs_agree_on_what_a_call_reads (m1 m2 : fetcher E) url w1 w2 :
  now w1 = now w2 ->
  (forall key,
      Utf8.encode (count_name url) = Some key
        \/ Utf8.encode (cached_name url) = Some key ->
      db w1 !! key = db w2 !! key) ->
  (truthy (cached w1 url) = false -> m1 url (now w1) = m2 url (now w2)) ->
  (count_requests m1 url w1).1 = (count_requests m2 url w2).1 /\
  now (count_requests m1 url w1).2 = now (count_requests m2 url w2).2 /\
  (exists evs,
      log (count_requests m1 url w1).2 = log w1 ++ evs /\
      log (count_requests m2 url w2).2 = log w2 ++ evs) /\
  (forall key,
      db w1 !! key = db w2 !! key ->
      db (count_requests m1 url w1).2 !! key
      = db (count_requests m2 url w2).2 !! key) /\
  (db w1 = db w2 ->
   db (count_requests m1 url w1).2 = db (count_requests m2 url w2).2).
Proof.
  intros Hnow Hkeys Hm.
  destruct (path_elsewhere m1 m2 url w1 w2 _ _ Hnow Hkeys Hm
              (count_requests_path m1 url w1))
    as (w2' & P2 & Hnow' & Hlog & Hagree).
  destruct (path_functional _ _ _ _ _ _ _ P2 (count_requests_path m2 url w2))
    as [Hr Hw].
  rewrite <- Hr, <- Hw.
  split; [reflexivity|]. split; [assumption|]. split; [assumption|].
  split; [assumption|].
  intros Hdb. apply map_eq. intros key. apply Hagree. rewrite Hdb. reflexivity.
Qed.

End Expiry.

Lemma expired_entry_is_refetched_witness :
  fetches url_A
    (count_requests hello url_A
       (sleep 11 (count_requests hello url_A empty_world).2)).2 = 2%nat.
Proof.
  destruct (expired_entry_is_refetched hello url_A empty_world (lit "hello")
              (count_requests hello url_A empty_world).2 11
              (count_requests hello url_A
                 (sleep 11 (count_requests hello url_A empty_world).2)).1
              (count_requests hello url_A
                 (sleep 11 (count_requests hello url_A empty_world).2)).2)
    as (_ & _ & Hf).
  - vm_compute. reflexivity.
  - vm_compute. reflexivity.
  - vm_compute. reflexivity.
  - vm_compute. reflexivity.
  - vm_compute. reflexivity.
  - exact Hf.
Defined.

(** A rewrite within the ten units: the empty body cached at time 5 is
    written again at time 11 and is then read back until time 21. *)
Lemma cache_writes_expire_after_ten_witness :
  exists v,
    Utf8.encode [] = Some v /\
    entry_of (run blank [Call url_A; Sleep 1; Call url_A] empty_world).2
      (cached_name url_A) = Some (Redis.Entry v (Some 21)).
Proof.
  destruct (cache_writes_expire_after_ten blank url_A
              (sleep 1 (count_requests blank url_A empty_world).2)
              (count_requests blank url_A
                 (sleep 1 (count_requests blank url_A empty_world).2)).1
              (count_requests blank url_A
                 (sleep 1 (count_requests blank url_A empty_world).2)).2)
    as (_ & Hwrite).
  - vm_compute. reflexivity.
  - destruct (Hwrite []) as (v & Hv & Hentry & _).
    + vm_compute. reflexivity.
    + vm_compute. reflexivity.
    + exists v. split; [exact Hv | exact Hentry].
Defined.

Lemma cached_content_round_trip_witness :
  (count_requests hello url_A
     (sleep 1 (count_requests hello url_A empty_world).2)).1 = inr (lit "hello").
Proof.
  destruct (cached_content_round_trip hello url_A empty_world (lit "hello")
              (count_requests hello url_A empty_world).2 1
              (count_requests hello url_A
                 (sleep 1 (count_requests hello url_A empty_world).2)).1
              (count_requests hello url_A
                 (sleep 1 (count_requests hello url_A empty_world).2)).2)
    as (_ & _ & b & _ & _ & _ & _ & Hr).
  - vm_compute. reflexivity.
  - vm_compute. reflexivity.
  - vm_compute. reflexivity.
  - vm_compute. reflexivity.
  - exact Hr.
Defined.

Lemma runs_agree_on_what_a_call_reads_witness :
  (count_requests hello url_A after_hello).1
  = (count_requests down url_A elsewhere).1.
Proof.
  apply (runs_agree_on_what_a_call_reads hello down url_A after_hello elsewhere).
  - reflexivity.
  - intros key [H | H]; vm_compute in H; injection H as <-;
      vm_compute; reflexivity.
  - intros H. vm_compute in H. discriminate H.
Defined.

(** ** The empty page *)

Section Served.
Context {E : Type}.
Implicit Types (method : fetcher E) (url : pystr) (w : world).

(** After a miss that cached non-empty content, a call within ten units
    that the server does not refuse returns the same content and does not
    call the decorated function. *)
Lemma second_call_served_from_cache method url w c w1 d r2 w2 :
  count_requests method url w = (inr c, w1) ->
  fetches url w1 = S (fetches url w) ->
  c <> [] ->
  Z.of_N d <= 10 ->
  count_requests method url (sleep d w1) = (r2, w2) ->
  refused r2 = false ->
  r2 = inr c /\ fetches url w2 = fetches url w1.
Proof.
  intros Hcall1 Hf1 Hc Hd Hcall2 Href.
  destruct (miss_inv method url w c w1 Hcall1 Hf1)
    as (u & n & db1 & v & Hu & _ & _ & _ & Hv & Hw1).
  assert (Hread : cached (sleep d w1) url = Some v).
  { rewrite Hw1, (cached_after_write _ _ _ url u) by assumption.
    destruct (Z.leb_spec (Z.of_N d) 10); [reflexivity|lia]. }
  assert (Hne : v <> []).
  { intros ->. apply Hc. apply decode_encode in Hv. cbn in Hv. congruence. }
  destruct (hit_serves_cache method url (sleep d w1) v c r2 w2 Hread Hne
              (decode_encode c v Hv) Hcall2 Href) as (-> & _ & Hf & _).
  split; [reflexivity|exact Hf].
Qed.

End Served.

(** C2 (found false on an empty body). The first call caches the empty
    body of the page; one time unit later the entry is there and has not
    expired, yet the next call does not serve it: it calls the decorated
    function again and writes the cache again. *)
Theorem empty_cache_entry_is_not_served :
  cached (sleep 1 (count_requests blank url_A empty_world).2) url_A = Some [] /\
  entry_of (sleep 1 (count_requests blank url_A empty_world).2) (cached_name url_A)
    = Some (Redis.Entry [] (Some 15)) /\
  count_requests blank url_A (sleep 1 (count_requests blank url_A empty_world).2)
  = (inr [],
     World
       (<[lit "cached:A" := Redis.Entry [] (Some 21)]>
          (<[lit "count:A" := Redis.Entry (lit "2") None]> ∅))
       11
       [Incr (lit "count:A"); Get (lit "cached:A"); Fetch url_A;
        Setex (lit "cached:A") 10 [];
        Incr (lit "count:A"); Get (lit "cached:A"); Fetch url_A;
        Setex (lit "cached:A") 10 []]).
Proof.
  split; [|split].
  - vm_compute. reflexivity.
  - vm_compute. reflexivity.
  - vm_compute. reflexivity.
Qed.

(** C5 (found false on an empty body). The page fetcher returns the same
    empty body whenever it is called; two calls one time unit apart, well
    within ten units of the first write, both return it, and the decorated
    function has been called twice. *)
Theorem blank_page_is_fetched_twice :
  (forall url t t', outcome (blank url t) = outcome (blank url t')) /\
  (run blank [Call url_A; Sleep 1; Call url_A] empty_world).1 = [inr []; inr []] /\
  fetches url_A (run blank [Call url_A; Sleep 1; Call url_A] empty_world).2 = 2%nat.
Proof.
  split; [reflexivity|]. split; vm_compute; reflexivity.
Qed.

(** ** The worked scenario: fetch at 0 done at 5, hit at 6, miss at 16 *)

Example scenario_results :
  (run hello [Call url_A; Sleep 1; Call url_A; Sleep 10; Call url_A] empty_world).1
  = [inr (lit "hello"); inr (lit "hello"); inr (lit "hello")].
Proof. vm_compute. reflexivity. Qed.

Example scenario_counts :
  let w := (run hello [Call url_A; Sleep 1; Call url_A; Sleep 10; Call url_A]
              empty_world).2 in
  counter w url_A = 3 /\ fetches url_A w = 2%nat /\ now w = 21
  /\ cached w url_A = Some (lit "hello").
Proof. vm_compute. repeat split; reflexivity. Qed.

Example euro_sign : Utf8.encode [0x20AC] = Some [0xE2; 0x82; 0xAC].
Proof. reflexivity. Qed.

Example overlong_refused : Utf8.decode [0xC0; 0x80] = None.
Proof. reflexivity. Qed.

Example surrogate_refused :
  Utf8.encode [0xD800] = None /\ Utf8.decode [0xED; 0xA0; 0x80] = None.
Proof. split; reflexivity. Qed.

Example counter_text :
  Redis.string2ll (lit "41") = Some 41 /\ Redis.string2ll (lit "041") = None
  /\ Redis.ll2string 42 = lit "42".
Proof. vm_compute. repeat split; reflexivity. Qed.

Example mixed_run :
  (run waking (Call url_A :: mixed_script) empty_world).1
  = [inl (Raised "ConnectionError"%string); inl (Raised "ConnectionError"%string);
     inr (lit "hello"); inr (lit "hello"); inr (lit "hello")]
  /\ fetches url_A (run waking (Call url_A :: mixed_script) empty_world).2 = 3%nat.
Proof. vm_compute. split; reflexivity. Qed.

(** * Further properties of the wrapper *)

(** ** Calls that stop early *)

Section EarlyExits.
Context {E : Type}.
Implicit Types (method : fetcher E) (url : pystr) (w : world).

Lemma entry_of_count w url e :
  entry_of w (count_name url) = Some e ->
  exists u, Utf8.encode url = Some u /\
            Redis.lookup (db w) (now w) (count_key u) = Some e.
Proof.
  unfold entry_of. rewrite encode_count_name.
  destruct (Utf8.encode url) as [u|]; [|discriminate].
  cbn [fmap option_fmap option_map]. eauto.
Qed.

Lemma entry_of_cached w url e :
  entry_of w (cached_name url) = Some e ->
  exists u, Utf8.encode url = Some u /\
            Redis.lookup (db w) (now w) (cached_key u) = Some e.
Proof.
  unfold entry_of. rewrite encode_cached_name.
  destruct (Utf8.encode url) as [u|]; [|discriminate].
  cbn [fmap option_fmap option_map]. eauto.
Qed.

(** X1. A url that has no UTF-8 encoding (it holds a lone surrogate) makes
    the call raise [UnicodeEncodeError] from [r.incr]: the INCR is the only
    call made, the cache is not read, the decorated function is not
    called, and keyspace and clock are as before. *)
Theorem unsendable_url_stops_the_call method url w :
  Utf8.encode url = None ->
  count_requests method url w
  = (inl UnicodeEncodeError,
     World (db w) (now w) (log w ++ [Incr (count_name url)])).
Proof.
  intros Hu.
  destruct (count_requests method url w) as [r w'] eqn:Hcall.
  path_of Hcall; congruence.
Qed.

(** X2. When the counter key of the url holds something the server cannot
    count on (text that is not an integer, or the largest 64-bit integer),
    the call raises the server's error reply from [r.incr]; the cache is
    not read, the decorated function is not called, and keyspace and clock
    are as before. *)
Theorem uncountable_counter_stops_the_call method url w e :
  entry_of w (count_name url) = Some e ->
  Redis.string2ll (Redis.value e) = None
    \/ Redis.string2ll (Redis.value e) = Some Redis.LLONG_MAX ->
  count_requests method url w
  = (inl (ResponseError
            (match Redis.string2ll (Redis.value e) with
             | None => Redis.NotAnInteger
             | Some _ => Redis.WouldOverflow
             end)),
     World (db w) (now w) (log w ++ [Incr (count_name url)])).
Proof.
  intros He Hv.
  destruct (entry_of_count w url e He) as (u & Hu & Hl).
  assert (Hincr : Redis.INCR (db w) (now w) (count_key u)
                  = inl (match Redis.string2ll (Redis.value e) with
                         | None => Redis.NotAnInteger
                         | Some _ => Redis.WouldOverflow
                         end)).
  { unfold Redis.INCR. rewrite Hl. destruct Hv as [-> | ->]; [reflexivity|].
    rewrite Z.leb_refl. reflexivity. }
  destruct (count_requests method url w) as [r w'] eqn:Hcall.
  path_of Hcall; congruence.
Qed.

(** X3. A call that finds non-empty, well-formed content under the cache
    key, and whose INCR is not refused, returns the content decoded; it
    makes two calls on the Store and none on the decorated function, takes
    no time, and leaves the cache entry as it was, expiry included: being
    read does not prolong an entry. *)
Theorem hit_does_not_renew_the_entry method url w e s r w' :
  entry_of w (cached_name url) = Some e ->
  Redis.value e <> [] ->
  Utf8.decode (Redis.value e) = Some s ->
  count_requests method url w = (r, w') ->
  refused r = false ->
  r = inr s /\
  log w' = log w ++ [Incr (count_name url); Get (cached_name url)] /\
  fetches url w' = fetches url w /\
  now w' = now w /\
  entry_of w' (cached_name url) = Some e.
Proof.
  intros He Hne Hdec Hcall Href.
  assert (Hcached : cached w url = Some (Redis.value e)).
  { unfold cached. rewrite He. reflexivity. }
  destruct (hit_serves_cache method url w (Redis.value e) s r w'
              Hcached Hne Hdec Hcall Href) as (Hr & Hlog & Hf & Hnow & Hkeep).
  repeat split; try assumption.
  destruct (entry_of_cached w url e He) as (u & Hu & Hl).
  unfold entry_of. rewrite encode_cached_name, Hu.
  cbn [fmap option_fmap option_map].
  rewrite Hnow. unfold Redis.lookup in *. rewrite Hkeep; [assumption|].
  rewrite encode_count_name, Hu. cbn [fmap option_fmap option_map].
  intros Heq. apply (count_key_cached_key u u). congruence.
Qed.

(** X4. A call that finds non-empty bytes that are not UTF-8 under the
    cache key, and whose INCR is not refused, raises [UnicodeDecodeError]
    from [decode]: the counter has been incremented, the decorated function
    is not called and the entry stays, so the calls that follow fail the
    same way until the entry expires. *)
Theorem undecodable_entry_raises method url w e r w' :
  entry_of w (cached_name url) = Some e ->
  Redis.value e <> [] ->
  Utf8.decode (Redis.value e) = None ->
  count_requests method url w = (r, w') ->
  refused r = false ->
  r = inl UnicodeDecodeError /\
  (exists u,
      Utf8.encode url = Some u /\
      Redis.INCR (db w) (now w) (count_key u) = inr (counter w url + 1, db w')) /\
  log w' = log w ++ [Incr (count_name url); Get (cached_name url)] /\
  fetches url w' = fetches url w /\
  now w' = now w /\
  entry_of w' (cached_name url) = Some e.
Proof.
  intros He Hne Hdec Hcall Href.
  destruct (entry_of_cached w url e He) as (u & Hu & Hl).
  assert (Hcached : cached w url = Some (Redis.value e)).
  { unfold cached. rewrite He. reflexivity. }
  assert (Hfalsy : truthy (cached w url) = false -> False).
  { rewrite Hcached. destruct (Redis.value e); [contradiction|discriminate]. }
  path_of Hcall; try discriminate Href; try congruence;
    match goal with H : Utf8.encode url = Some _ |- _ =>
      rewrite Hu in H; injection H as <- end;
    match goal with H : context [Redis.GET _ _ _] |- _ =>
      erewrite GET_in_call in H by eassumption end;
    try (exfalso; auto; fail).
  assert (b = Redis.value e) as -> by congruence.
  match goal with H : Redis.INCR _ _ _ = _ |- _ => rename H into Hincr end.
  rewrite Hdec. cbn [log now db].
  destruct (INCR_inv _ _ _ _ _ Hincr) as (_ & Hn & _).
  rewrite <- (counter_unfold w url u Hu) in Hn.
  repeat split; try reflexivity.
  - exists u. split; [assumption|]. rewrite <- Hn. assumption.
  - count_fetches. lia.
  - unfold entry_of. rewrite encode_cached_name, Hu.
    cbn [fmap option_fmap option_map db now].
    unfold Redis.lookup in *.
    rewrite (INCR_frame _ _ _ _ _ (cached_key u) Hincr); [assumption|].
    intros Heq. symmetry in Heq. revert Heq. apply count_key_cached_key.
Qed.

End EarlyExits.

Lemma unsendable_url_stops_the_call_witness :
  count_requests hello url_bad empty_world
  = (inl UnicodeEncodeError,
     World (db empty_world) (now empty_world)
       (log empty_world ++ [Incr (count_name url_bad)])).
Proof.
  apply (unsendable_url_stops_the_call hello url_bad empty_world).
  reflexivity.
Defined.

Lemma uncountable_counter_stops_the_call_witness :
  (count_requests hello url_A not_a_number).1
  = inl (ResponseError Redis.NotAnInteger)
  /\ (count_requests hello url_A exhausted).1
     = inl (ResponseError Redis.WouldOverflow).
Proof.
  split.
  - rewrite (uncountable_counter_stops_the_call hello url_A not_a_number
               (Redis.Entry (lit "abc") None)).
    + reflexivity.
    + vm_compute. reflexivity.
    + left. vm_compute. reflexivity.
  - rewrite (uncountable_counter_stops_the_call hello url_A exhausted
               (Redis.Entry (Redis.ll2string Redis.LLONG_MAX) None)).
    + vm_compute. reflexivity.
    + vm_compute. reflexivity.
    + right. vm_compute. reflexivity.
Defined.

Lemma hit_does_not_renew_the_entry_witness :
  entry_of
    (count_requests hello url_A
       (sleep 4 (count_requests hello url_A empty_world).2)).2
    (cached_name url_A)
  = Some (Redis.Entry (lit "hello") (Some 15)).
Proof.
  destruct (hit_does_not_renew_the_entry hello url_A
              (sleep 4 (count_requests hello url_A empty_world).2)
              (Redis.Entry (lit "hello") (Some 15)) (lit "hello")
              (count_requests hello url_A
                 (sleep 4 (count_requests hello url_A empty_world).2)).1
              (count_requests hello url_A
                 (sleep 4 (count_requests hello url_A empty_world).2)).2)
    as (_ & _ & _ & _ & Hentry).
  - vm_compute. reflexivity.
  - discriminate.
  - vm_compute. reflexivity.
  - vm_compute. reflexivity.
  - vm_compute. reflexivity.
  - exact Hentry.
Defined.

Lemma undecodable_entry_raises_witness :
  (count_requests hello url_A garbled).1 = inl UnicodeDecodeError.
Proof.
  destruct (undecodable_entry_raises hello url_A garbled
              (Redis.Entry [0xFF] (Some 30))
              (count_requests hello url_A garbled).1
              (count_requests hello url_A garbled).2)
    as (Hr & _).
  - vm_compute. reflexivity.
  - discriminate.
  - vm_compute. reflexivity.
  - vm_compute. reflexivity.
  - vm_compute. reflexivity.
  - exact Hr.
Defined.

(** ** When the decorated function is called *)

Section Fetching.
Context {E : Type}.
Implicit Types (method : fetcher E) (url : pystr) (w : world).

(** A cache read that is empty stays empty as the clock moves on. *)
Lemma truthy_later d t t' key :
  truthy (Redis.GET d t key) = false -> t <= t' ->
  truthy (Redis.GET d t' key) = false.
Proof.
  unfold Redis.GET, Redis.lookup, Redis.expired. intros H Ht.
  destruct (d !! key) as [e|]; [|reflexivity].
  destruct (Redis.expire_at e) as [x|]; [|assumption].
  destruct (Z.ltb_spec x t'); [reflexivity|].
  destruct (Z.ltb_spec x t); [lia|assumption].
Qed.

Lemma fetches_other url url' w evs :
  url' <> url ->
  List.length (List.filter (is_fetch url') (evs ++ [Fetch url]))
  = List.length (List.filter (is_fetch url') evs).
Proof.
  intros Hne. rewrite List.filter_app, length_app. cbn [List.filter is_fetch].
  rewrite bool_decide_eq_false_2 by congruence. cbn. lia.
Qed.

(** One call: at most one call of the decorated function, on its own url. *)
Lemma fetch_step method url w url' :
  (url' <> url ->
   fetches url' (count_requests method url w).2 = fetches url' w) /\
  (fetches url (count_requests method url w).2 <= S (fetches url w))%nat.
Proof.
  split.
  - intros Hne. by_path method url w; unfold fetches; cbn [snd log];
      rewrite List.filter_app, length_app; cbn [List.filter is_fetch];
      rewrite ?bool_decide_eq_false_2 by congruence; cbn [List.length]; lia.
  - by_path method url w; cbn [snd]; count_fetches; lia.
Qed.

(** X5. When the decorated function returns text that has no UTF-8
    encoding, the call raises [UnicodeEncodeError] from [r.setex] after the
    fetch: the counter has been incremented and the time of the fetch has
    passed, but nothing is written to the cache; the keyspace is the one
    found with the single INCR applied. *)
Theorem unsendable_page_is_not_cached method url w html r w' :
  is_Some (Utf8.encode url) ->
  truthy (cached w url) = false ->
  outcome (method url (now w)) = inr html ->
  Utf8.encode html = None ->
  count_requests method url w = (r, w') ->
  refused r = false ->
  r = inl UnicodeEncodeError /\
  log w' = log w ++ [Incr (count_name url); Get (cached_name url); Fetch url;
                     Setex (cached_name url) 10 html] /\
  now w' = now w + Z.of_N (elapsed (method url (now w))) /\
  exists u,
    Utf8.encode url = Some u /\
    Redis.INCR (db w) (now w) (count_key u) = inr (counter w url + 1, db w').
Proof.
  intros [u0 Hu0] Hfalsy Hout Hhtml Hcall Href.
  path_of Hcall; try discriminate Href; try congruence;
    match goal with H : Utf8.encode url = Some _ |- _ =>
      rewrite Hu0 in H; injection H as <- end.
  - match goal with H : Redis.GET _ _ _ = Some _ |- _ =>
      erewrite GET_in_call in H by eassumption; rewrite H in Hfalsy end.
    destruct b; [contradiction|discriminate].
  - match goal with H : Redis.INCR _ _ _ = _ |- _ => rename H into Hincr end.
    destruct (INCR_inv _ _ _ _ _ Hincr) as (_ & Hn & _).
    rewrite <- (counter_unfold w url u0 Hu0) in Hn.
    assert (html0 = html) as -> by congruence.
    repeat split. exists u0. split; [assumption|]. cbn [db].
    rewrite <- Hn. assumption.
Qed.

(** X6. A call calls the decorated function exactly when the url can be
    sent, the INCR is not refused and the cache read is [None] or empty
    bytes: never when non-empty content is cached (so a live non-empty
    entry is never overwritten), always when the cached body is empty;
    and it never calls it on another url. *)
Theorem fetched_exactly_when_cache_reads_empty method url w r w' :
  count_requests method url w = (r, w') ->
  (fetches url w' = S (fetches url w) <->
   is_Some (Utf8.encode url) /\ refused r = false /\ truthy (cached w url) = false)
  /\ (fetches url w' <> S (fetches url w) -> fetches url w' = fetches url w)
  /\ (forall url', url' <> url -> fetches url' w' = fetches url' w).
Proof.
  intros Hcall.
  assert (Hother : forall url', url' <> url -> fetches url' w' = fetches url' w).
  { intros url' Hne. pose proof (proj1 (fetch_step method url w url') Hne) as H.
    rewrite Hcall in H. exact H. }
  split; [|split; [|exact Hother]].
  - path_of Hcall;
      try match goal with H : context [Redis.GET _ _ _] |- _ =>
        erewrite GET_in_call in H by eassumption end.
    + split; [intros Hf; exfalso; count_fetches; lia|].
      intros ([u Hu] & _). congruence.
    + split; [intros Hf; exfalso; count_fetches; lia|].
      intros (_ & Href & _). discriminate Href.
    + split; [intros Hf; exfalso; count_fetches; lia|].
      intros (_ & _ & Hfalsy).
      match goal with H : cached w url = Some _ |- _ => rewrite H in Hfalsy end.
      destruct b; [contradiction|discriminate].
    + split; [intros _; repeat split; eauto | intros _; count_fetches; lia].
    + split; [intros _; repeat split; eauto | intros _; count_fetches; lia].
    + split; [intros _; repeat split; eauto | intros _; count_fetches; lia].
  - intros Hno. pose proof (proj2 (fetch_step method url w url)) as Hle.
    rewrite Hcall in Hle. cbn [snd] in Hle.
    assert (fetches url w <= fetches url w')%nat; [|lia].
    clear Hno Hle Hother. path_of Hcall; count_fetches; lia.
Qed.

(** X7. However a script goes, the decorated function is called on a url
    no more often than the script calls the wrapper on that url. *)
Theorem never_more_fetches_than_calls method url script w :
  (fetches url (run method script w).2 <= fetches url w + calls url script)%nat.
Proof.
  revert w. induction script as [|[url'|d] script IH]; intros w.
  - cbn. lia.
  - cbn [run].
    destruct (count_requests method url' w) as [r w1] eqn:Hcall.
    destruct (run method script w1) as [rs w2] eqn:Hrun. cbn [snd].
    specialize (IH w1). rewrite Hrun in IH. cbn [snd] in IH.
    destruct (fetch_step method url' w url) as [Hother Hsame].
    rewrite Hcall in Hother, Hsame. cbn [snd] in Hother, Hsame.
    destruct (decide (url' = url)) as [->|Hne].
    + rewrite calls_cons_same. lia.
    + rewrite calls_cons_other by assumption.
      rewrite Hother in IH by congruence. lia.
  - cbn [run]. specialize (IH (sleep d w)).
    change (calls url (Sleep d :: script)) with (calls url script).
    change (fetches url (sleep d w)) with (fetches url w) in IH. exact IH.
Qed.

(** X8. A failure is not remembered: after a call in which the decorated
    function raised, the next call on the url, whenever it comes and
    unless its INCR is refused, calls the decorated function again. *)
Theorem failures_are_not_cached method url w e w1 d r2 w2 :
  count_requests method url w = (inl (Raised e), w1) ->
  count_requests method url (sleep d w1) = (r2, w2) ->
  refused r2 = false ->
  truthy (cached (sleep d w1) url) = false /\
  fetches url w2 = S (fetches url w1).
Proof.
  intros Hcall1 Hcall2 Href.
  assert (Hfirst : is_Some (Utf8.encode url)
                   /\ truthy (cached (sleep d w1) url) = false).
  { path_of Hcall1;
      try match goal with H : match Utf8.decode ?b with _ => _ end = _ |- _ =>
        destruct (Utf8.decode b); discriminate H end.
    match goal with H : Utf8.encode url = Some _ |- _ => rename H into Hu end.
    split; [eauto|].
    rewrite (cached_unfold _ url u Hu). cbn [sleep db now].
    eapply truthy_later; [eassumption|lia]. }
  destruct Hfirst as [[u0 Hu0] Hfalsy].
  split; [assumption|].
  assert (Hlog : log (sleep d w1) = log w1) by reflexivity.
  clear Hcall1.
  path_of Hcall2; try discriminate Href; try congruence;
    try match goal with H : context [Redis.GET _ _ _] |- _ =>
      erewrite GET_in_call in H by eassumption end;
    try (rewrite Hlog; count_fetches; lia).
  match goal with H : cached _ url = Some _ |- _ => rewrite H in Hfalsy end.
  destruct b; [contradiction|discriminate].
Qed.

(** X9. After a miss that cached non-empty content, a call on the url
    within ten time units, unless its INCR is refused, returns that
    content without calling the decorated function, and the entry still
    expires ten units after the write: being served does not prolong it. *)
Theorem cache_serves_until_expiry method url w c w1 d r2 w2 :
  count_requests method url w = (inr c, w1) ->
  fetches url w1 = S (fetches url w) ->
  c <> [] ->
  Z.of_N d <= 10 ->
  count_requests method url (sleep d w1) = (r2, w2) ->
  refused r2 = false ->
  r2 = inr c /\
  fetches url w2 = fetches url w1 /\
  now w2 = now w1 + Z.of_N d /\
  exists v,
    Utf8.encode c = Some v /\
    entry_of w2 (cached_name url) = Some (Redis.Entry v (Some (now w1 + 10))).
Proof.
  intros Hcall1 Hf1 Hc Hd Hcall2 Href.
  destruct (miss_inv method url w c w1 Hcall1 Hf1)
    as (u & n & db1 & v & Hu & _ & _ & _ & Hv & Hw1).
  assert (Hentry : entry_of (sleep d w1) (cached_name url)
                   = Some (Redis.Entry v (Some (now w1 + 10)))).
  { rewrite Hw1. unfold entry_of. rewrite encode_cached_name, Hu.
    cbn [fmap option_fmap option_map sleep db now].
    unfold Redis.lookup, Redis.expired. rewrite lookup_insert_eq.
    cbn [Redis.expire_at].
    match goal with |- context [?a <? ?b] =>
      destruct (Z.ltb_spec a b); [lia|reflexivity] end. }
  assert (Hread : cached (sleep d w1) url = Some v).
  { unfold cached. rewrite Hentry. reflexivity. }
  assert (Hne : v <> []).
  { intros ->. apply Hc. apply decode_encode in Hv. cbn in Hv. congruence. }
  destruct (hit_serves_cache method url (sleep d w1) v c r2 w2 Hread Hne
              (decode_encode c v Hv) Hcall2 Href)
    as (-> & _ & Hf & Hnow & Hkeep).
  repeat split; try assumption.
  exists v. split; [assumption|].
  rewrite <- Hentry. unfold entry_of. rewrite encode_cached_name, Hu.
  cbn [fmap option_fmap option_map]. rewrite Hnow.
  unfold Redis.lookup. rewrite Hkeep; [reflexivity|].
  rewrite encode_count_name, Hu. cbn [fmap option_fmap option_map].
  intros Heq. apply (count_key_cached_key u u). congruence.
Qed.

End Fetching.

Lemma unsendable_page_is_not_cached_witness :
  (count_requests surrogate_page url_A empty_world).1 = inl UnicodeEncodeError
  /\ cached (count_requests surrogate_page url_A empty_world).2 url_A = None.
Proof.
  destruct (unsendable_page_is_not_cached surrogate_page url_A empty_world [0xD800]
              (count_requests surrogate_page url_A empty_world).1
              (count_requests surrogate_page url_A empty_world).2)
    as (Hr & _).
  - vm_compute. eauto.
  - reflexivity.
  - reflexivity.
  - reflexivity.
  - vm_compute. reflexivity.
  - vm_compute. reflexivity.
  - split; [exact Hr | vm_compute; reflexivity].
Defined.

Lemma fetched_exactly_when_cache_reads_empty_witness :
  fetches url_A
    (count_requests blank url_A
       (sleep 1 (count_requests blank url_A empty_world).2)).2
  = S (fetches url_A (sleep 1 (count_requests blank url_A empty_world).2)).
Proof.
  apply (proj1 (fetched_exactly_when_cache_reads_empty blank url_A
                  (sleep 1 (count_requests blank url_A empty_world).2)
                  (count_requests blank url_A
                     (sleep 1 (count_requests blank url_A empty_world).2)).1
                  (count_requests blank url_A
                     (sleep 1 (count_requests blank url_A empty_world).2)).2
                  ltac:(vm_compute; reflexivity))).
  split; [vm_compute; eauto | split; vm_compute; reflexivity].
Defined.

Lemma failures_are_not_cached_witness :
  fetches url_A
    (count_requests down url_A
       (sleep 100 (count_requests down url_A empty_world).2)).2 = 2%nat.
Proof.
  destruct (failures_are_not_cached down url_A empty_world "ConnectionError"%string
              (count_requests down url_A empty_world).2 100
              (count_requests down url_A
                 (sleep 100 (count_requests down url_A empty_world).2)).1
              (count_requests down url_A
                 (sleep 100 (count_requests down url_A empty_world).2)).2)
    as (_ & Hf).
  - vm_compute. reflexivity.
  - vm_compute. reflexivity.
  - vm_compute. reflexivity.
  - exact Hf.
Defined.

Lemma cache_serves_until_expiry_witness :
  (count_requests hello url_A
     (sleep 10 (count_requests hello url_A empty_world).2)).1 = inr (lit "hello")
  /\ fetches url_A
       (count_requests hello url_A
          (sleep 10 (count_requests hello url_A empty_world).2)).2 = 1%nat.
Proof.
  destruct (cache_serves_until_expiry hello url_A empty_world (lit "hello")
              (count_requests hello url_A empty_world).2 10
              (count_requests hello url_A
                 (sleep 10 (count_requests hello url_A empty_world).2)).1
              (count_requests hello url_A
                 (sleep 10 (count_requests hello url_A empty_world).2)).2)
    as (Hr & Hf & _).
  - vm_compute. reflexivity.
  - vm_compute. reflexivity.
  - discriminate.
  - vm_compute. discriminate.
  - vm_compute. reflexivity.
  - vm_compute. reflexivity.
  - split; [exact Hr | exact Hf].
Defined.

(** ** What the wrapper keeps true of the Store *)

Section Invariants.
Context {E : Type}.
Implicit Types (method : fetcher E) (url : pystr) (w : world).

Lemma wf_insert (d : gmap (list Z) Redis.entry) key e :
  wf_store d -> wf_entry key e -> wf_store (<[key := e]> d).
Proof.
  intros Hd He key' e'. rewrite lookup_insert.
  destruct (decide (key = key')) as [<-|_]; [intros [= <-]; exact He|].
  apply Hd.
Qed.

Lemma wf_count_key d u e :
  wf_store d -> d !! count_key u = Some e ->
  Redis.expire_at e = None /\ is_Some (Redis.string2ll (Redis.value e)).
Proof.
  intros Hd He. destruct (Hd _ _ He) as [(u' & _ & Hx & Hv) | (u' & s & Hk & _)].
  - auto.
  - exfalso. eapply count_key_cached_key. eassumption.
Qed.

Lemma wf_cached_key d u e :
  wf_store d -> d !! cached_key u = Some e ->
  exists s, Utf8.encode s = Some (Redis.value e).
Proof.
  intros Hd He. destruct (Hd _ _ He) as [(u' & Hk & _) | (u' & s & _ & Hs)].
  - exfalso. symmetry in Hk. eapply count_key_cached_key. eassumption.
  - eauto.
Qed.

Lemma wf_INCR d t u n d1 :
  wf_store d -> Redis.INCR d t (count_key u) = inr (n, d1) -> wf_store d1.
Proof.
  intros Hd Hincr.
  destruct (INCR_inv _ _ _ _ _ Hincr) as (Hrange & _ & ->).
  apply wf_insert; [assumption|].
  left. exists u. split; [reflexivity|]. cbn [Redis.expire_at Redis.value]. split.
  - destruct (Redis.lookup d t (count_key u)) as [e|] eqn:Hl; [|reflexivity].
    cbn. apply lookup_Some in Hl. eapply wf_count_key; eassumption.
  - rewrite string2ll_ll2string by assumption. eauto.
Qed.

Lemma wf_call method url w :
  wf_store (db w) -> wf_store (db (count_requests method url w).2).
Proof.
  intros Hw. by_path method url w; cbn [snd db]; eauto using wf_INCR.
  apply wf_insert; [eauto using wf_INCR|].
  right. eexists _, _. split; [reflexivity|]. cbn [Redis.value]. eassumption.
Qed.

Lemma wf_run method script w :
  wf_store (db w) -> wf_store (db (run method script w).2).
Proof.
  revert w. induction script as [|[url|d] script IH]; intros w Hw.
  - exact Hw.
  - cbn [run]. pose proof (wf_call method url w Hw) as H1.
    destruct (count_requests method url w) as [r w1].
    specialize (IH w1 H1). destruct (run method script w1). exact IH.
  - cbn [run]. apply IH. exact Hw.
Qed.

(** In a keyspace only the wrapper has written to, a call raises neither
    a decoding error nor an error reply other than the overflow. *)
Lemma wf_call_errors method url w :
  wf_store (db w) ->
  (count_requests method url w).1 <> inl UnicodeDecodeError /\
  (forall e, (count_requests method url w).1 = inl (ResponseError e) ->
             e = Redis.WouldOverflow /\ counter w url = Redis.LLONG_MAX).
Proof.
  intros Hw. by_path method url w; cbn [fst]; split; try discriminate.
  - intros e0 [= <-].
    match goal with H : Redis.INCR _ _ _ = _ |- _ => rename H into Hincr end.
    match goal with H : Utf8.encode url = _ |- _ => rename H into Hu end.
    rewrite (counter_unfold w url u Hu).
    unfold Redis.INCR in Hincr.
    destruct (Redis.lookup (db w) (now w) (count_key u)) as [e0|] eqn:Hl;
      [|discriminate].
    destruct (wf_count_key _ _ _ Hw (lookup_Some _ _ _ _ Hl)) as [_ [c Hc]].
    rewrite Hc in *. cbn [default from_option id].
    pose proof (string2ll_range _ _ Hc).
    destruct (Z.leb_spec Redis.LLONG_MAX c); [|discriminate].
    injection Hincr as <-. split; [reflexivity|lia].
  - match goal with H : Redis.GET _ _ _ = Some _ |- _ => rename H into Hget end.
    match goal with H : Redis.INCR _ _ _ = _ |- _ => rename H into Hincr end.
    unfold Redis.GET in Hget.
    destruct (Redis.lookup db1 (now w) (cached_key u)) as [e0|] eqn:Hl;
      [|discriminate].
    injection Hget as <-.
    destruct (wf_cached_key _ _ _ (wf_INCR _ _ _ _ _ Hw Hincr)
                (lookup_Some _ _ _ _ Hl)) as [s Hs].
    rewrite (decode_encode _ _ Hs). discriminate.
  - match goal with H : Redis.GET _ _ _ = Some _ |- _ => rename H into Hget end.
    intros e0 Hr. destruct (Utf8.decode b); discriminate Hr.
Qed.

(** X10. A keyspace that holds only what the wrapper writes (integers
    without expiry under counter keys, UTF-8 encodings under cache keys,
    nothing else) is still such a keyspace after any script of calls and
    pauses; the empty keyspace is one. *)
Theorem wrapper_keeps_the_store_well_formed method script w :
  wf_store (db w) ->
  wf_store (db (run method script w).2) /\
  forall url, stable_counter (run method script w).2 url.
Proof.
  intros Hw. pose proof (wf_run method script w Hw) as Hrun.
  split; [assumption|].
  intros url. unfold stable_counter.
  destruct (entry_of (run method script w).2 (count_name url)) as [e|] eqn:He;
    [|exact I].
  destruct (entry_of_count _ _ _ He) as (u & _ & Hl).
  eapply wf_count_key; [exact Hrun|]. eapply lookup_Some. eassumption.
Qed.

(** X11. Starting from a keyspace only the wrapper has written to, no call
    of any script raises [UnicodeDecodeError], and the only error reply of
    the server is the overflow of a counter: what a script can see raised
    is an exception of the decorated function, [UnicodeEncodeError] for a
    url or a page that cannot be sent, or that overflow. *)
Theorem wrapper_only_store_never_garbles method script w r :
  wf_store (db w) ->
  In r (run method script w).1 ->
  r <> inl UnicodeDecodeError /\
  r <> inl (ResponseError Redis.NotAnInteger) /\
  r <> inl (ResponseError Redis.InvalidExpire).
Proof.
  revert w. induction script as [|[url|d] script IH]; intros w Hw Hin.
  - contradiction.
  - cbn [run] in Hin.
    pose proof (wf_call method url w Hw) as H1.
    pose proof (wf_call_errors method url w Hw) as [Hdec Hresp].
    destruct (count_requests method url w) as [r1 w1].
    cbn [fst snd] in *. specialize (IH w1 H1).
    destruct (run method script w1) as [rs w2]. cbn [fst] in *.
    destruct Hin as [<- | Hin]; [|auto].
    split; [assumption|].
    split; intros ->; destruct (Hresp _ eq_refl) as [Habs _]; discriminate Habs.
  - cbn [run] in Hin. apply (IH (sleep d w)); assumption.
Qed.

End Invariants.

Lemma wf_store_empty : wf_store ∅.
Proof. intros key e H. rewrite lookup_empty in H. discriminate H. Qed.

Lemma wrapper_keeps_the_store_well_formed_witness :
  stable_counter (run waking (Call url_A :: mixed_script) empty_world).2 url_A.
Proof.
  apply (proj2 (wrapper_keeps_the_store_well_formed waking
                  (Call url_A :: mixed_script) empty_world wf_store_empty)).
Defined.

Lemma wrapper_only_store_never_garbles_witness :
  (inl (Raised "ConnectionError"%string) : exn String.string + pystr)
  <> inl UnicodeDecodeError.
Proof.
  apply (wrapper_only_store_never_garbles waking (Call url_A :: mixed_script)
           empty_world (inl (Raised "ConnectionError"%string)) wf_store_empty).
  vm_compute. left. reflexivity.
Defined.

(** ** Keys and counters *)

Section Keys.
Context {E : Type}.
Implicit Types (method : fetcher E) (url : pystr) (w : world).

(** X12. The names built from urls never meet in the Store: two urls with
    the same counter key, or with the same cache key, are the same url, and
    no counter key is the cache key of any url. *)
Theorem keys_never_collide url1 url2 key :
  (Utf8.encode (count_name url1) = Some key ->
   Utf8.encode (count_name url2) = Some key -> url1 = url2) /\
  (Utf8.encode (cached_name url1) = Some key ->
   Utf8.encode (cached_name url2) = Some key -> url1 = url2) /\
  (Utf8.encode (count_name url1) = Some key ->
   Utf8.encode (cached_name url2) <> Some key).
Proof.
  repeat split.
  - intros H1 H2. pose proof (encode_inj _ _ _ H1 H2) as Heq.
    apply app_inv_head in Heq. exact Heq.
  - intros H1 H2. pose proof (encode_inj _ _ _ H1 H2) as Heq.
    apply app_inv_head in Heq. exact Heq.
  - intros H1 H2. pose proof (encode_inj _ _ _ H1 H2) as Heq. discriminate Heq.
Qed.

(** One call on a stable counter: it stays stable and moves up by one or
    not at all. *)
Lemma counter_call_any method url w :
  stable_counter w url ->
  stable_counter (count_requests method url w).2 url /\
  (counter (count_requests method url w).2 url = counter w url
   \/ counter (count_requests method url w).2 url = counter w url + 1).
Proof.
  intros Hs.
  by_path method url w; cbn [snd];
    try (split; [exact Hs | left; reflexivity]);
    match goal with H : Utf8.encode url = Some _ |- _ => rename H into Hu end;
    match goal with H : Redis.INCR _ _ _ = _ |- _ => rename H into Hincr end;
    destruct (counter_after_INCR w url u n db1 Hu Hs Hincr) as (-> & Hr & Hraw).
  - destruct (counter_read (World db1 (now w)
        (log w ++ [Incr (count_name url); Get (cached_name url)])) url u
        (counter w url + 1) Hu Hr Hraw); auto.
  - destruct (counter_read (World db1
        (now w + Z.of_N (elapsed (method url (now w))))
        (log w ++ [Incr (count_name url); Get (cached_name url); Fetch url]))
        url u (counter w url + 1) Hu Hr Hraw); auto.
  - destruct (counter_read (World db1
        (now w + Z.of_N (elapsed (method url (now w))))
        (log w ++ [Incr (count_name url); Get (cached_name url); Fetch url;
                   Setex (cached_name url) 10 html]))
        url u (counter w url + 1) Hu Hr Hraw); auto.
  - match goal with |- context [World ?d ?t ?l] =>
      destruct (counter_read (World d t l) url u (counter w url + 1) Hu Hr) end;
      auto.
    cbn [db]. rewrite lookup_insert_ne; [assumption|].
    intros Heq. symmetry in Heq. revert Heq. apply count_key_cached_key.
Qed.

(** X13. A counter without expiry is never lowered or reset: through any
    script, calls that are refused or fail included, its value does not go
    down, and it goes up by at most the number of calls on its url. *)
Theorem counter_never_goes_down method url script w :
  stable_counter w url ->
  counter w url <= counter (run method script w).2 url
  /\ counter (run method script w).2 url
     <= counter w url + Z.of_nat (calls url script).
Proof.
  revert w. induction script as [|[url'|d] script IH]; intros w Hs.
  - cbn. unfold calls. cbn. lia.
  - cbn [run].
    assert (Hstep : stable_counter (count_requests method url' w).2 url /\
                    counter w url <= counter (count_requests method url' w).2 url
                    /\ counter (count_requests method url' w).2 url
                       <= counter w url
                          + Z.of_nat (calls url [Call url'])).
    { destruct (decide (url' = url)) as [->|Hne].
      - destruct (counter_call_any method url w Hs) as [Hs1 Hc].
        split; [assumption|]. rewrite calls_cons_same. cbn. lia.
      - destruct (counter_other_call method url url' w Hne Hs) as [Hs1 Hc].
        split; [assumption|]. rewrite Hc. lia. }
    assert (Hcalls : calls url (Call url' :: script)
                     = (calls url [Call url'] + calls url script)%nat).
    { unfold calls. cbn [List.filter]. destruct (is_call url (Call url')); reflexivity. }
    destruct (count_requests method url' w) as [r w1]. cbn [snd] in Hstep.
    destruct Hstep as (Hs1 & Hlo & Hhi).
    specialize (IH w1 Hs1). destruct (run method script w1) as [rs w2].
    cbn [snd] in *. rewrite Hcalls. lia.
  - cbn [run]. destruct (counter_sleep d url w Hs) as [Hs1 Hc].
    specialize (IH (sleep d w) Hs1).
    change (calls url (Sleep d :: script)) with (calls url script). lia.
Qed.

End Keys.

Lemma keys_never_collide_witness :
  Utf8.encode (cached_name (lit "A")) <> Some (lit "count:A").
Proof.
  apply (proj2 (proj2 (keys_never_collide (lit "A") (lit "A")
                         (lit "count:A")))).
  reflexivity.
Defined.

Lemma counter_never_goes_down_witness :
  counter exhausted url_A
  <= counter (run hello [Call url_A; Call url_B] exhausted).2 url_A.
Proof.
  apply (counter_never_goes_down hello url_A [Call url_A; Call url_B] exhausted).
  vm_compute. eauto.
Defined.

(** ** How long the cache holds on to content *)

Section Staleness.
Context {E : Type}.
Implicit Types (method : fetcher E) (url : pystr) (w : world).

Lemma short_lived_later w w' :
  short_lived w -> db w' = db w -> now w <= now w' -> short_lived w'.
Proof.
  intros Hw Hdb Ht u e He. rewrite Hdb in He.
  destruct (Hw u e He) as (x & Hx & Hle).
  exists x. split; [assumption|lia].
Qed.

Lemma short_lived_INCR w u n db1 t lg :
  short_lived w -> now w <= t ->
  Redis.INCR (db w) (now w) (count_key u) = inr (n, db1) ->
  short_lived (World db1 t lg).
Proof.
  intros Hw Ht Hincr u' e He. cbn [db now] in *.
  rewrite (INCR_frame _ _ _ _ _ (cached_key u') Hincr) in He.
  - destruct (Hw u' e He) as (x & Hx & Hle). exists x. split; [assumption|lia].
  - intros Heq. symmetry in Heq. revert Heq. apply count_key_cached_key.
Qed.

Lemma short_lived_call method url w :
  short_lived w -> short_lived (count_requests method url w).2.
Proof.
  intros Hw. by_path method url w; cbn [snd].
  - apply (short_lived_later w); [assumption|reflexivity|reflexivity].
  - apply (short_lived_later w); [assumption|reflexivity|reflexivity].
  - eapply short_lived_INCR; [eassumption|lia|eassumption].
  - eapply short_lived_INCR; [eassumption|lia|eassumption].
  - eapply short_lived_INCR; [eassumption|lia|eassumption].
  - intros u' e He. cbn [db now] in *. rewrite lookup_insert in He.
    destruct (decide (cached_key u = cached_key u')) as [_|Hne].
    + injection He as <-. cbn [Redis.expire_at]. eexists. split; [reflexivity|lia].
    + eapply (short_lived_INCR w u n db1
                (now w + Z.of_N (elapsed (method url (now w)))) []);
        [eassumption|lia|eassumption|exact He].
Qed.

(** X14. The wrapper never lets content outlive its ten units: if every
    cache entry is due to expire within ten time units, then after any
    script of calls and pauses every cache entry is again due to expire
    within ten time units of the time then; the empty Store is such a
    start. No cache entry is ever written without expiry. *)
Theorem cache_entries_expire_within_ten method script w :
  short_lived w -> short_lived (run method script w).2.
Proof.
  revert w. induction script as [|[url|d] script IH]; intros w Hw.
  - exact Hw.
  - cbn [run]. pose proof (short_lived_call method url w Hw) as H1.
    destruct (count_requests method url w) as [r w1].
    specialize (IH w1 H1). destruct (run method script w1). exact IH.
  - cbn [run]. apply IH.
    apply (short_lived_later w); [assumption|reflexivity|cbn [sleep now]; lia].
Qed.

End Staleness.

Lemma short_lived_empty : short_lived empty_world.
Proof. intros u e H. cbn in H. rewrite lookup_empty in H. discriminate H. Qed.

Lemma cache_entries_expire_within_ten_witness :
  short_lived (run waking (Call url_A :: mixed_script) empty_world).2.
Proof.
  apply (cache_entries_expire_within_ten waking (Call url_A :: mixed_script)
           empty_world short_lived_empty).
Defined.
